(** * Shairport Sync MQTT media player: a shallow embedding

    The development follows the three source files of the integration:
    - [const.py]: the closed vocabularies [Configuration], [TopLevelTopic]
      and [Command];
    - [media_player.py]: the entity [ShairportSyncMediaPlayer], its MQTT
      callbacks, the topic map, the read-only properties and the command
      relay;
    - [config_flow.py]: the single step [async_step_user].

    Python values are modelled as follows.  A [str] is a Rocq [string]
    (its UTF-8 octets), [bytes] is [list byte]; [None]-able attributes are
    [option]s; a [dict] is a [gmap]; a raised exception is the [Raise]
    branch of [result].  A Python [float] is [pyfloat]: NaN and the two
    infinities are kept apart because comparisons and arithmetic treat
    them specially, and a finite value is an exact rational (rounding to
    53 bits, overflow to an infinity and the sign of zero are abstracted).

    The host is reduced to what the entity can see of it: the states it
    writes, the messages it publishes and its MQTT subscriptions. *)

From Stdlib Require Import ZArith QArith Lqa Lia Ascii String List.
From Stdlib Require Strings.Byte.
From stdpp Require Import gmap strings list.

Local Open Scope string_scope.

(** ** Exceptions *)

Inductive exn : Type :=
  | ValueError
  | IndexError
  | KeyError
  | TypeError
  | ZeroDivisionError.

Inductive result (A : Type) : Type :=
  | Ok (a : A)
  | Raise (e : exn).
Arguments Ok {A} a.
Arguments Raise {A} e.

Definition bind {A B : Type} (r : result A) (k : A -> result B) : result B :=
  match r with
  | Ok a => k a
  | Raise e => Raise e
  end.

Notation "'let!' x ':=' r 'in' k" := (bind r (fun x => k))
  (at level 10, x name, r at level 100, k at level 200).

(** ** Python floats *)

Module PyFloat.

Inductive pyfloat : Type :=
  | PNaN
  | PInf (negative : bool)
  | PFin (q : Q).

Definition of_Q (q : Q) : pyfloat := PFin (Qred q).

(** [x < y] and [x > y] of [float]: false as soon as one side is NaN. *)
Definition lt (x y : pyfloat) : bool :=
  match x, y with
  | PNaN, _ | _, PNaN => false
  | PInf true, PInf true => false
  | PInf true, _ => true
  | _, PInf true => false
  | PInf false, _ => false
  | PFin _, PInf false => true
  | PFin a, PFin b => if Qlt_le_dec a b then true else false
  end.

Definition gt (x y : pyfloat) : bool := lt y x.

(** The builtins [min(a, b)] and [max(a, b)]: the first argument is kept
    unless the second compares strictly below (above) it. *)
Definition py_min (a b : pyfloat) : pyfloat := if lt b a then b else a.
Definition py_max (a b : pyfloat) : pyfloat := if gt b a then b else a.

(** [x - y]; on finite values the exact difference, the rounding of the
    result to a double is not modelled. *)
Definition sub (x y : pyfloat) : pyfloat :=
  match x, y with
  | PNaN, _ | _, PNaN => PNaN
  | PInf sx, PInf sy => if Bool.eqb sx sy then PNaN else PInf sx
  | PInf sx, PFin _ => PInf sx
  | PFin _, PInf sy => PInf (negb sy)
  | PFin a, PFin b => of_Q (a - b)
  end.

Definition is_zero (q : Q) : bool := (Qnum q =? 0)%Z.
Definition is_neg (q : Q) : bool := (Qnum q <? 0)%Z.

(** [x / y]; a zero divisor raises [ZeroDivisionError].  On finite
    values the exact quotient, the rounding of the result to a double is
    not modelled. *)
Definition div (x y : pyfloat) : result pyfloat :=
  match x, y with
  | _, PFin b =>
      if is_zero b then Raise ZeroDivisionError
      else match x with
           | PNaN => Ok PNaN
           | PInf sx => Ok (PInf (xorb sx (is_neg b)))
           | PFin a => Ok (of_Q (a / b))
           end
  | PNaN, _ | _, PNaN => Ok PNaN
  | PInf _, PInf _ => Ok PNaN
  | PFin _, PInf _ => Ok (PFin 0)
  end.

(** [lo <= x <= hi] as a proposition on finite values; no special value
    lies in a finite interval. *)
Definition between (lo hi : Q) (x : pyfloat) : Prop :=
  match x with
  | PFin q => (lo <= q /\ q <= hi)%Q
  | _ => False
  end.

Definition is_nan (x : pyfloat) : bool :=
  match x with PNaN => true | _ => false end.

End PyFloat.
Export PyFloat.

(** ** The builtin [float(str)] on ASCII text

    Surrounding white space is stripped; an underscore may stand between
    two digits; the body is an optional sign followed by [inf], [infinity]
    or [nan] in any letter case, or by a decimal literal with at least one
    mantissa digit and an optional exponent.  Anything else raises
    [ValueError]. *)

Module FloatParse.

Definition code (c : ascii) : nat := nat_of_ascii c.

Definition is_space (c : ascii) : bool :=
  let n := code c in
  (((9 <=? n) && (n <=? 13)) || (n =? 32))%nat.

Definition is_digit (c : ascii) : bool :=
  let n := code c in ((48 <=? n) && (n <=? 57))%nat.

Definition digit_val (c : ascii) : Z := Z.of_nat (code c) - 48.

Definition lower (c : ascii) : ascii :=
  let n := code c in
  if ((65 <=? n) && (n <=? 90))%nat then ascii_of_nat (n + 32) else c.

Fixpoint drop_spaces (l : list ascii) : list ascii :=
  match l with
  | c :: l' => if is_space c then drop_spaces l' else l
  | [] => []
  end.

Definition strip (l : list ascii) : list ascii :=
  rev (drop_spaces (rev (drop_spaces l))).

Definition underscore : ascii := "_"%char.

(** Removal of digit-group underscores; [prev] is the character read
    last ([None] at the start). *)
Fixpoint squeeze (prev : option ascii) (l : list ascii) : option (list ascii) :=
  match l with
  | [] =>
      match prev with
      | Some p => if Ascii.eqb p underscore then None else Some []
      | None => Some []
      end
  | c :: l' =>
      if Ascii.eqb c underscore then
        match prev with
        | Some p => if is_digit p then squeeze (Some c) l' else None
        | None => None
        end
      else
        let after_underscore :=
          match prev with
          | Some p => Ascii.eqb p underscore
          | None => false
          end in
        if after_underscore && negb (is_digit c) then None
        else option_map (cons c) (squeeze (Some c) l')
  end.

Fixpoint span_digits (l : list ascii) : list ascii * list ascii :=
  match l with
  | c :: l' =>
      if is_digit c then
        let '(ds, rest) := span_digits l' in (c :: ds, rest)
      else ([], l)
  | [] => ([], [])
  end.

Definition digits_value (ds : list ascii) : Z :=
  fold_left (fun acc c => 10 * acc + digit_val c)%Z ds 0%Z.

(** An optional sign: [true] for a leading minus. *)
Definition take_sign (l : list ascii) : bool * list ascii :=
  match l with
  | c :: l' =>
      if Ascii.eqb c "-"%char then (true, l')
      else if Ascii.eqb c "+"%char then (false, l')
      else (false, l)
  | [] => (false, [])
  end.

(** The exponent part: [Some 0] when there is none, [None] when it is
    malformed or followed by other characters. *)
Definition exponent (l : list ascii) : option Z :=
  match l with
  | [] => Some 0%Z
  | c :: l' =>
      if Ascii.eqb (lower c) "e"%char then
        let '(neg, l'') := take_sign l' in
        let '(ds, rest) := span_digits l'' in
        match ds, rest with
        | _ :: _, [] =>
            Some (if neg then - digits_value ds else digits_value ds)%Z
        | _, _ => None
        end
      else None
  end.

Definition decimal (l : list ascii) : option Q :=
  let '(ip, r1) := span_digits l in
  let '(fp, r2) :=
    match r1 with
    | c :: r1' =>
        if Ascii.eqb c "."%char then span_digits r1' else ([], r1)
    | [] => ([], [])
    end in
  match (ip ++ fp)%list with
  | [] => None
  | ds =>
      match exponent r2 with
      | Some e =>
          Some (inject_Z (digits_value ds)
                * Qpower (10 # 1) (e - Z.of_nat (length fp)))%Q
      | None => None
      end
  end.

Definition special (l : list ascii) : option (bool -> pyfloat) :=
  let w := string_of_list_ascii (map lower l) in
  if String.eqb w "inf" || String.eqb w "infinity" then Some PInf
  else if String.eqb w "nan" then Some (fun _ => PNaN)
  else None.

Definition float_of_ascii (l : list ascii) : result pyfloat :=
  let body := strip l in
  match
    (if existsb (Ascii.eqb underscore) body then squeeze None body
     else Some body)
  with
  | None => Raise ValueError
  | Some body' =>
      let '(neg, num) := take_sign body' in
      match special num with
      | Some mk => Ok (mk neg)
      | None =>
          match decimal num with
          | Some q => Ok (of_Q (if neg then - q else q))
          | None => Raise ValueError
          end
      end
  end.

End FloatParse.

Definition float (s : string) : result pyfloat :=
  FloatParse.float_of_ascii (list_ascii_of_string s).

(** ** [const.py] *)

Definition DOMAIN : string := "shairport_sync".

Inductive Configuration : Type := NAME | TOPIC | DESCRIPTION.

Definition Configuration_str (c : Configuration) : string :=
  match c with
  | NAME => "name"
  | TOPIC => "topic"
  | DESCRIPTION => "description"
  end.

Inductive TopLevelTopic : Type :=
  | SSNC | CORE | REMOTE
  | PLAY_START | PLAY_RESUME | PLAY_END | PLAY_FLUSH | ACTIVE_END
  | ARTIST | ALBUM | TITLE | COVER | VOLUME
  | POSITION | DURATION | SEEK.

Definition TopLevelTopic_str (t : TopLevelTopic) : string :=
  match t with
  | SSNC => "ssnc"
  | CORE => "core"
  | REMOTE => "remote"
  | PLAY_START => "play_start"
  | PLAY_RESUME => "play_resume"
  | PLAY_END => "play_end"
  | PLAY_FLUSH => "play_flush"
  | ACTIVE_END => "active_end"
  | ARTIST => "artist"
  | ALBUM => "album"
  | TITLE => "title"
  | COVER => "cover"
  | VOLUME => "volume"
  | POSITION => "position"
  | DURATION => "duration"
  | SEEK => "seek"
  end.

Inductive Command : Type :=
  | PLAY | PAUSE | STOP | SKIP_NEXT | SKIP_PREVIOUS
  | VOLUME_UP | VOLUME_DOWN
  | SEEK_TO | SET_POSITION.

(** [str(cmd)] of a [StrEnum] member is its value. *)
Definition Command_str (c : Command) : string :=
  match c with
  | PLAY => "play"
  | PAUSE => "pause"
  | STOP => "stop"
  | SKIP_NEXT => "nextitem"
  | SKIP_PREVIOUS => "previtem"
  | VOLUME_UP => "volumeup"
  | VOLUME_DOWN => "volumedown"
  | SEEK_TO => "seek_to"
  | SET_POSITION => "set_position"
  end.

(** ** Host vocabulary used by [media_player.py] *)

(** The host's [MediaPlayerState] enumeration, the declared type of the
    entity's [_state] attribute. *)
Inductive MediaPlayerState : Type :=
  | OFF | ON | IDLE | PLAYING | PAUSED | STANDBY | BUFFERING.

#[global] Instance MediaPlayerState_eq_dec : EqDecision MediaPlayerState.
Proof. solve_decision. Defined.

(** [new == MediaPlayerState.IDLE] *)
Definition is_IDLE (s : MediaPlayerState) : bool :=
  match s with IDLE => true | _ => false end.

(** An MQTT payload as a callback sees it: a [str] when the subscription
    asked for an encoding, the raw [bytes] otherwise. *)
Inductive Payload : Type :=
  | Text (s : string)
  | Binary (b : list Byte.byte).

Record ReceiveMessage : Type := {
  topic : string;
  payload : Payload
}.

(** ** [media_player.py]: module constants *)

Definition _MIN_DB : pyfloat := PFin (-30).
Definition _MAX_DB : pyfloat := PFin 0.
Definition _DB_RANGE : pyfloat := sub _MAX_DB _MIN_DB.

(** Closures created by [_subscribe_topics]; each captures [self]. *)
Inductive Callback : Type :=
  | cb_play | cb_pause | cb_stop
  | cb_meta (attr : string)
  | cb_art | cb_vol
  | cb_position | cb_duration.

(** One [async_subscribe] registration; the entity keeps it as the handle
    that cancels it. *)
Record Subscription : Type := {
  sub_topic : string;
  sub_callback : Callback;
  sub_encoding : option string
}.

(** ** The entity's attributes *)

Record ShairportSyncMediaPlayer : Type := {
  _name : string;
  _base_topic : string;
  _description : string;
  _state : MediaPlayerState;
  _title : option Payload;
  _artist : option Payload;
  _album : option Payload;
  _media_image : option Payload;
  _volume_db : option pyfloat;
  _duration : option pyfloat;
  _position : option pyfloat;
  _last_position_update : option pyfloat;
  _subscriptions : list Subscription;
  _remote_topic : string
}.

(** What the entity can observe or change of the host: the states written
    with [async_write_ha_state] (latest first), the messages handed to
    [async_publish] (latest first) and the live MQTT subscriptions. *)
Record HomeAssistant : Type := {
  written : list ShairportSyncMediaPlayer;
  published : list (string * string);
  subscribed : list Subscription
}.

Record World : Type := {
  self : ShairportSyncMediaPlayer;
  hass : HomeAssistant
}.

(** ** [hashlib.md5(data).hexdigest()]

    The digest of RFC 1321 on 32-bit words held in [Z], with the wrap-around
    written out. *)

Module MD5.

Local Open Scope Z_scope.

Definition wrap (x : Z) : Z := Z.land x 0xffffffff.

Definition rotl (x c : Z) : Z :=
  wrap (Z.lor (Z.shiftl x c) (Z.shiftr x (32 - c))).

Definition K : list Z :=
  [ 0xd76aa478; 0xe8c7b756; 0x242070db; 0xc1bdceee;
    0xf57c0faf; 0x4787c62a; 0xa8304613; 0xfd469501;
    0x698098d8; 0x8b44f7af; 0xffff5bb1; 0x895cd7be;
    0x6b901122; 0xfd987193; 0xa679438e; 0x49b40821;
    0xf61e2562; 0xc040b340; 0x265e5a51; 0xe9b6c7aa;
    0xd62f105d; 0x02441453; 0xd8a1e681; 0xe7d3fbc8;
    0x21e1cde6; 0xc33707d6; 0xf4d50d87; 0x455a14ed;
    0xa9e3e905; 0xfcefa3f8; 0x676f02d9; 0x8d2a4c8a;
    0xfffa3942; 0x8771f681; 0x6d9d6122; 0xfde5380c;
    0xa4beea44; 0x4bdecfa9; 0xf6bb4b60; 0xbebfbc70;
    0x289b7ec6; 0xeaa127fa; 0xd4ef3085; 0x04881d05;
    0xd9d4d039; 0xe6db99e5; 0x1fa27cf8; 0xc4ac5665;
    0xf4292244; 0x432aff97; 0xab9423a7; 0xfc93a039;
    0x655b59c3; 0x8f0ccc92; 0xffeff47d; 0x85845dd1;
    0x6fa87e4f; 0xfe2ce6e0; 0xa3014314; 0x4e0811a1;
    0xf7537e82; 0xbd3af235; 0x2ad7d2bb; 0xeb86d391 ].

Definition shifts : list Z :=
  [ 7; 12; 17; 22; 7; 12; 17; 22; 7; 12; 17; 22; 7; 12; 17; 22;
    5; 9; 14; 20; 5; 9; 14; 20; 5; 9; 14; 20; 5; 9; 14; 20;
    4; 11; 16; 23; 4; 11; 16; 23; 4; 11; 16; 23; 4; 11; 16; 23;
    6; 10; 15; 21; 6; 10; 15; 21; 6; 10; 15; 21; 6; 10; 15; 21 ].

Definition lnot32 (x : Z) : Z := Z.lxor x 0xffffffff.

(** Little-endian octets of [x], [n] of them. *)
Fixpoint le_bytes (n : nat) (x : Z) : list Z :=
  match n with
  | O => []
  | S n' => Z.land x 0xff :: le_bytes n' (Z.shiftr x 8)
  end.

Fixpoint le_word (bs : list Z) : Z :=
  match bs with
  | [] => 0
  | b :: bs' => Z.lor b (Z.shiftl (le_word bs') 8)
  end.

(** The message followed by 0x80, zeros up to 56 modulo 64, and the bit
    length on eight octets. *)
Definition pad (msg : list Z) : list Z :=
  let len := Z.of_nat (length msg) in
  let zeros := Z.to_nat ((55 - len) mod 64) in
  (msg ++ 0x80 :: repeat 0 zeros ++ le_bytes 8 (Z.land (8 * len) 0xffffffffffffffff))%list.

Fixpoint words (n : nat) (bs : list Z) : list Z :=
  match n with
  | O => []
  | S n' => le_word (firstn 4 bs) :: words n' (skipn 4 bs)
  end.

Fixpoint blocks (n : nat) (bs : list Z) : list (list Z) :=
  match n with
  | O => []
  | S n' => words 16 (firstn 64 bs) :: blocks n' (skipn 64 bs)
  end.

Definition state : Type := Z * Z * Z * Z.

Definition step (M : list Z) (st : state) (i : nat) : state :=
  let '(A, B, C, D) := st in
  let iz := Z.of_nat i in
  let '(F, g) :=
    if iz <? 16 then (Z.lor (Z.land B C) (Z.land (lnot32 B) D), iz)
    else if iz <? 32 then
      (Z.lor (Z.land D B) (Z.land (lnot32 D) C), (5 * iz + 1) mod 16)
    else if iz <? 48 then (Z.lxor (Z.lxor B C) D, (3 * iz + 5) mod 16)
    else (Z.lxor C (Z.lor B (lnot32 D)), (7 * iz) mod 16) in
  let F' := wrap (F + A + nth i K 0 + nth (Z.to_nat g) M 0) in
  (D, wrap (B + rotl F' (nth i shifts 0)), B, C).

Definition compress (st : state) (M : list Z) : state :=
  let '(a0, b0, c0, d0) := st in
  let '(A, B, C, D) := fold_left (step M) (seq 0 64) st in
  (wrap (a0 + A), wrap (b0 + B), wrap (c0 + C), wrap (d0 + D)).

Definition init : state := (0x67452301, 0xefcdab89, 0x98badcfe, 0x10325476).

Definition digest (msg : list Byte.byte) : list Z :=
  let bs := pad (map (fun b => Z.of_nat (Byte.to_nat b)) msg) in
  let '(a, b, c, d) :=
    fold_left compress (blocks (length bs / 64) bs) init in
  (le_bytes 4 a ++ le_bytes 4 b ++ le_bytes 4 c ++ le_bytes 4 d)%list.

Definition hex_digit (x : Z) : ascii :=
  nth (Z.to_nat x)
    (list_ascii_of_string "0123456789abcdef") "0"%char.

Fixpoint hex (bs : list Z) : string :=
  match bs with
  | [] => EmptyString
  | b :: bs' =>
      String (hex_digit (Z.shiftr b 4))
        (String (hex_digit (Z.land b 0xf)) (hex bs'))
  end.

Definition hexdigest (msg : list Byte.byte) : string := hex (digest msg).

End MD5.

(** ** String and sequence builtins *)

(** [s.rstrip(c)] for a one-character [c]. *)
Fixpoint rstrip (c : ascii) (s : string) : string :=
  match s with
  | EmptyString => EmptyString
  | String a s' =>
      match rstrip c s' with
      | EmptyString =>
          if Ascii.eqb a c then EmptyString else String a EmptyString
      | r => String a r
      end
  end.

(** [s.split(sep)] for a one-character [sep]: never empty. *)
Fixpoint split (sep : ascii) (s : string) : list string :=
  match s with
  | EmptyString => [EmptyString]
  | String a s' =>
      if Ascii.eqb a sep then EmptyString :: split sep s'
      else match split sep s' with
           | h :: t => String a h :: t
           | [] => [String a EmptyString]
           end
  end.

(** [l[i]] for [i >= 0]. *)
Definition getitem {A : Type} (l : list A) (i : nat) : result A :=
  match nth_error l i with
  | Some a => Ok a
  | None => Raise IndexError
  end.

(** Truth value of a payload: empty text and empty bytes are false. *)
Definition truthy (p : Payload) : bool :=
  match p with
  | Text EmptyString | Binary [] => false
  | _ => true
  end.

(** ** Attribute assignment *)

Section Setters.
Variable e : ShairportSyncMediaPlayer.

Definition set_state (v : MediaPlayerState) : ShairportSyncMediaPlayer :=
  {| _name := _name e; _base_topic := _base_topic e;
     _description := _description e; _state := v; _title := _title e;
     _artist := _artist e; _album := _album e;
     _media_image := _media_image e; _volume_db := _volume_db e;
     _duration := _duration e; _position := _position e;
     _last_position_update := _last_position_update e;
     _subscriptions := _subscriptions e;
     _remote_topic := _remote_topic e |}.

Definition set_title (v : option Payload) : ShairportSyncMediaPlayer :=
  {| _name := _name e; _base_topic := _base_topic e;
     _description := _description e; _state := _state e; _title := v;
     _artist := _artist e; _album := _album e;
     _media_image := _media_image e; _volume_db := _volume_db e;
     _duration := _duration e; _position := _position e;
     _last_position_update := _last_position_update e;
     _subscriptions := _subscriptions e;
     _remote_topic := _remote_topic e |}.

Definition set_artist (v : option Payload) : ShairportSyncMediaPlayer :=
  {| _name := _name e; _base_topic := _base_topic e;
     _description := _description e; _state := _state e;
     _title := _title e; _artist := v; _album := _album e;
     _media_image := _media_image e; _volume_db := _volume_db e;
     _duration := _duration e; _position := _position e;
     _last_position_update := _last_position_update e;
     _subscriptions := _subscriptions e;
     _remote_topic := _remote_topic e |}.

Definition set_album (v : option Payload) : ShairportSyncMediaPlayer :=
  {| _name := _name e; _base_topic := _base_topic e;
     _description := _description e; _state := _state e;
     _title := _title e; _artist := _artist e; _album := v;
     _media_image := _media_image e; _volume_db := _volume_db e;
     _duration := _duration e; _position := _position e;
     _last_position_update := _last_position_update e;
     _subscriptions := _subscriptions e;
     _remote_topic := _remote_topic e |}.

Definition set_media_image (v : option Payload) : ShairportSyncMediaPlayer :=
  {| _name := _name e; _base_topic := _base_topic e;
     _description := _description e; _state := _state e;
     _title := _title e; _artist := _artist e; _album := _album e;
     _media_image := v; _volume_db := _volume_db e;
     _duration := _duration e; _position := _position e;
     _last_position_update := _last_position_update e;
     _subscriptions := _subscriptions e;
     _remote_topic := _remote_topic e |}.

Definition set_volume_db (v : option pyfloat) : ShairportSyncMediaPlayer :=
  {| _name := _name e; _base_topic := _base_topic e;
     _description := _description e; _state := _state e;
     _title := _title e; _artist := _artist e; _album := _album e;
     _media_image := _media_image e; _volume_db := v;
     _duration := _duration e; _position := _position e;
     _last_position_update := _last_position_update e;
     _subscriptions := _subscriptions e;
     _remote_topic := _remote_topic e |}.

Definition set_subscriptions (v : list Subscription) : ShairportSyncMediaPlayer :=
  {| _name := _name e; _base_topic := _base_topic e;
     _description := _description e; _state := _state e;
     _title := _title e; _artist := _artist e; _album := _album e;
     _media_image := _media_image e; _volume_db := _volume_db e;
     _duration := _duration e; _position := _position e;
     _last_position_update := _last_position_update e;
     _subscriptions := v;
     _remote_topic := _remote_topic e |}.

(** [setattr(self, name, value)] on the text attributes; a name outside
    them would create an attribute the record does not track. *)
Definition setattr (name : string) (v : Payload) : ShairportSyncMediaPlayer :=
  if String.eqb name "_title" then set_title (Some v)
  else if String.eqb name "_artist" then set_artist (Some v)
  else if String.eqb name "_album" then set_album (Some v)
  else e.

End Setters.

(** ** Host operations *)

Definition on_self (f : ShairportSyncMediaPlayer -> ShairportSyncMediaPlayer)
    (w : World) : World :=
  {| self := f (self w); hass := hass w |}.

Definition async_write_ha_state (w : World) : World :=
  {| self := self w;
     hass := {| written := self w :: written (hass w);
                published := published (hass w);
                subscribed := subscribed (hass w) |} |}.

Definition async_publish (t msg : string) (w : World) : World :=
  {| self := self w;
     hass := {| written := written (hass w);
                published := (t, msg) :: published (hass w);
                subscribed := subscribed (hass w) |} |}.

Definition async_subscribe (s : Subscription) (w : World) : World :=
  {| self := self w;
     hass := {| written := written (hass w);
                published := published (hass w);
                subscribed := (subscribed (hass w) ++ [s])%list |} |}.

#[global] Instance Callback_eq_dec : EqDecision Callback.
Proof. solve_decision. Defined.

#[global] Instance Subscription_eq_dec : EqDecision Subscription.
Proof. solve_decision. Defined.

(** Calling the handle returned by [async_subscribe]. *)
Definition unsub (s : Subscription) (w : World) : World :=
  {| self := self w;
     hass := {| written := written (hass w);
                published := published (hass w);
                subscribed :=
                  List.filter (fun s' => negb (bool_decide (s' = s)))
                    (subscribed (hass w)) |} |}.

(** ** [ShairportSyncMediaPlayer.__init__] *)

Definition __init__ (name base_topic description : string)
    : ShairportSyncMediaPlayer :=
  let base := rstrip "/" base_topic in
  {| _name := name;
     _base_topic := base;
     _description := description;
     _state := IDLE;
     _title := None;
     _artist := None;
     _album := None;
     _media_image := None;
     _volume_db := None;
     _duration := None;
     _position := None;
     _last_position_update := None;
     _subscriptions := [];
     _remote_topic :=
       base ++ "/" ++ TopLevelTopic_str SSNC ++ "/" ++ TopLevelTopic_str REMOTE |}.

(** ** The callbacks of [_subscribe_topics] *)

Definition _set_state (new : MediaPlayerState) (w : World) : World :=
  let w := on_self (fun e => set_state e new) w in
  let w :=
    if is_IDLE new then
      let w := on_self (fun e => set_title e None) w in
      let w := on_self (fun e => set_artist e None) w in
      let w := on_self (fun e => set_album e None) w in
      let w := on_self (fun e => set_media_image e None) w in
      on_self (fun e => set_volume_db e None) w
    else w in
  async_write_ha_state w.

Definition _cb_play (_ : ReceiveMessage) (w : World) : World :=
  _set_state PLAYING w.

Definition _cb_pause (_ : ReceiveMessage) (w : World) : World :=
  _set_state PAUSED w.

Definition _cb_stop (_ : ReceiveMessage) (w : World) : World :=
  _set_state IDLE w.

Definition _meta_updater (attr : string) (msg : ReceiveMessage) (w : World)
    : World :=
  let w := on_self (fun e => setattr e ("_" ++ attr) (payload msg)) w in
  async_write_ha_state w.

Definition _cb_art (msg : ReceiveMessage) (w : World) : World :=
  let w := on_self (fun e => set_media_image e (Some (payload msg))) w in
  async_write_ha_state w.

(** [float(msg.payload.split(",")[0])]; splitting [bytes] by a [str]
    separator is a [TypeError]. *)
Definition leading_db (msg : ReceiveMessage) : result pyfloat :=
  match payload msg with
  | Text s =>
      let! tok := getitem (split "," s) 0 in
      float tok
  | Binary _ => Raise TypeError
  end.

Definition _cb_vol (msg : ReceiveMessage) (w : World) : result World :=
  match leading_db msg with
  | Raise ValueError | Raise IndexError => Ok w
  | Raise e => Raise e
  | Ok db =>
      let w :=
        on_self
          (fun e => set_volume_db e (Some (py_max (py_min db _MAX_DB) _MIN_DB)))
          w in
      Ok (async_write_ha_state w)
  end.

Definition _cb_position (_ : ReceiveMessage) (w : World) : World := w.

Definition _cb_duration (_ : ReceiveMessage) (w : World) : World := w.

(** Applying a closure to a message. *)
Definition call (cb : Callback) (msg : ReceiveMessage) (w : World)
    : result World :=
  match cb with
  | cb_play => Ok (_cb_play msg w)
  | cb_pause => Ok (_cb_pause msg w)
  | cb_stop => Ok (_cb_stop msg w)
  | cb_meta attr => Ok (_meta_updater attr msg w)
  | cb_art => Ok (_cb_art msg w)
  | cb_vol => _cb_vol msg w
  | cb_position => Ok (_cb_position msg w)
  | cb_duration => Ok (_cb_duration msg w)
  end.

Definition ssnc_prefix (e : ShairportSyncMediaPlayer) : string :=
  _base_topic e ++ "/" ++ TopLevelTopic_str SSNC.

Definition core_prefix (e : ShairportSyncMediaPlayer) : string :=
  ssnc_prefix e ++ "/" ++ TopLevelTopic_str CORE.

Definition utf8 : option string := Some "utf-8".

(** [f"{ssnc_prefix}/{t}"] and [f"{core_prefix}/{t}"] *)
Definition ssnc (e : ShairportSyncMediaPlayer) (t : TopLevelTopic) : string :=
  ssnc_prefix e ++ "/" ++ TopLevelTopic_str t.

Definition core (e : ShairportSyncMediaPlayer) (t : TopLevelTopic) : string :=
  core_prefix e ++ "/" ++ TopLevelTopic_str t.

(** The dict literal [topic_map], in insertion order. *)
Definition topic_map (e : ShairportSyncMediaPlayer)
    : list (string * (Callback * option string)) :=
  let ssnc := ssnc e in
  let core := core e in
  [ (ssnc PLAY_START, (cb_play, utf8));
    (ssnc PLAY_RESUME, (cb_play, utf8));
    (ssnc PLAY_END, (cb_pause, utf8));
    (ssnc PLAY_FLUSH, (cb_pause, utf8));
    (ssnc ACTIVE_END, (cb_stop, utf8));
    (ssnc COVER, (cb_art, None));
    (ssnc VOLUME, (cb_vol, utf8));
    (core ARTIST, (cb_meta "artist", utf8));
    (core ALBUM, (cb_meta "album", utf8));
    (core TITLE, (cb_meta "title", utf8));
    (core POSITION, (cb_position, utf8));
    (core DURATION, (cb_duration, utf8)) ].

Definition subscription (item : string * (Callback * option string))
    : Subscription :=
  let '(t, (cb, enc)) := item in
  {| sub_topic := t; sub_callback := cb; sub_encoding := enc |}.

(** The loop over [topic_map.items()]. *)
Definition _subscribe_topics (w : World) : World :=
  fold_left
    (fun w item =>
       let s := subscription item in
       let w := async_subscribe s w in
       on_self (fun e => set_subscriptions e (_subscriptions e ++ [s])%list) w)
    (topic_map (self w)) w.

Definition async_added_to_hass (w : World) : World := _subscribe_topics w.

Definition async_will_remove_from_hass (w : World) : World :=
  fold_left (fun w s => unsub s w) (_subscriptions (self w)) w.

(** ** Read-only properties *)

Definition name (e : ShairportSyncMediaPlayer) : string := _name e.

Definition state (e : ShairportSyncMediaPlayer) : MediaPlayerState := _state e.

Definition media_title (e : ShairportSyncMediaPlayer) : option Payload :=
  _title e.

Definition media_artist (e : ShairportSyncMediaPlayer) : option Payload :=
  _artist e.

Definition media_album_name (e : ShairportSyncMediaPlayer) : option Payload :=
  _album e.

(** [hashlib.md5] takes bytes; a non-empty [str] is a [TypeError]. *)
Definition media_image_hash (e : ShairportSyncMediaPlayer)
    : result (option string) :=
  match _media_image e with
  | Some img =>
      if truthy img then
        match img with
        | Binary b => Ok (Some (MD5.hexdigest b))
        | Text _ => Raise TypeError
        end
      else Ok None
  | None => Ok None
  end.

Definition volume_level (e : ShairportSyncMediaPlayer)
    : result (option pyfloat) :=
  match _volume_db e with
  | None => Ok None
  | Some db =>
      let! r := div (sub db _MIN_DB) _DB_RANGE in
      Ok (Some r)
  end.

Inductive AttrValue : Type :=
  | AStr (s : string)
  | AFloat (x : pyfloat).

Definition extra_state_attributes (e : ShairportSyncMediaPlayer)
    : gmap string AttrValue :=
  let attrs : gmap string AttrValue :=
    {[ "description" := AStr (_description e) ]} in
  let attrs :=
    match _duration e with
    | Some d => <[ "duration" := AFloat d ]> attrs
    | None => attrs
    end in
  match _position e with
  | Some p => <[ "position" := AFloat p ]> attrs
  | None => attrs
  end.

(** ** Command helpers *)

Definition _publish_cmd (cmd : Command) (w : World) : World :=
  async_publish (_remote_topic (self w)) (Command_str cmd) w.

Definition async_media_play (w : World) : World := _publish_cmd PLAY w.

Definition async_media_pause (w : World) : World := _publish_cmd PAUSE w.

Definition async_media_stop (w : World) : World := _publish_cmd STOP w.

(** Modelled from the spec: the body of [async_media_next_track], of which
    the source keeps only the signature; the next-track command publishes
    the token [nextitem] once to the remote-command topic. *)
Definition async_media_next_track (w : World) : World :=
  _publish_cmd SKIP_NEXT w.

(** Modelled from the spec: [async_media_previous_track], absent from the
    source; the previous-track command publishes the token [previtem] once
    to the remote-command topic. *)
Definition async_media_previous_track (w : World) : World :=
  _publish_cmd SKIP_PREVIOUS w.

(** ** Message dispatch and the entity's life *)

(** The payload a subscription receives: decoded text when it asked for an
    encoding (a [str] is kept as its octets, so decoding keeps the octets;
    octets that are not valid UTF-8 never reach a callback and are not
    told apart here), the raw bytes otherwise. *)
Definition decode (enc : option string) (raw : list Byte.byte) : Payload :=
  match enc with
  | Some _ => Text (string_of_list_byte raw)
  | None => Binary raw
  end.

(** A subscription topic is an MQTT topic filter.  The host looks a topic
    without [+] and [#] up by equality and matches any other one level by
    level: a level equal to the topic's matches, [+] stands for any one
    level, a final [#] for all the levels that remain, none included, and
    a topic that starts with [$] is not matched by a leading wildcard. *)
Definition has_wildcard (filter : string) : bool :=
  existsb (fun c => Ascii.eqb c "+" || Ascii.eqb c "#")
    (list_ascii_of_string filter).

Definition starts_with_dollar (t : string) : bool :=
  match t with
  | String c _ => Ascii.eqb c "$"
  | EmptyString => false
  end.

(** [wild] tells whether a wildcard may match here: always past the first
    level, and at the first level unless the topic starts with [$]. *)
Fixpoint match_levels (wild : bool) (fs ts : list string) : bool :=
  match fs with
  | [] => match ts with [] => true | _ :: _ => false end
  | f :: fs' =>
      match ts with
      | [] => false
      | t :: ts' =>
          (String.eqb f t || (String.eqb f "+" && wild))
          && match_levels true fs' ts'
      end
      || (String.eqb f "#" && wild
          && match fs' with [] => true | _ :: _ => false end)
  end.

Definition topic_matches (filter t : string) : bool :=
  match_levels (negb (starts_with_dollar t)) (split "/" filter) (split "/" t).

Definition receives (filter t : string) : bool :=
  if has_wildcard filter then topic_matches filter t
  else String.eqb filter t.

Definition on_topic (t : string) (s : Subscription) : bool :=
  receives (sub_topic s) t.

Definition deliver (t : string) (raw : list Byte.byte)
    (r : result World) (s : Subscription) : result World :=
  let! w := r in
  if on_topic t s then
    call (sub_callback s)
      {| topic := t; payload := decode (sub_encoding s) raw |} w
  else Ok w.

(** The host hands an inbound message to every subscription on its topic. *)
Definition mqtt_receive (t : string) (raw : list Byte.byte) (w : World)
    : result World :=
  fold_left (deliver t raw) (subscribed (hass w)) (Ok w).

Inductive Service : Type :=
  | media_play | media_pause | media_stop
  | media_next_track | media_previous_track.

Definition service (c : Service) : World -> World :=
  match c with
  | media_play => async_media_play
  | media_pause => async_media_pause
  | media_stop => async_media_stop
  | media_next_track => async_media_next_track
  | media_previous_track => async_media_previous_track
  end.

Inductive Event : Type :=
  | Inbound (t : string) (raw : list Byte.byte)
  | Invoke (c : Service).

Definition handle (ev : Event) (w : World) : result World :=
  match ev with
  | Inbound t raw => mqtt_receive t raw w
  | Invoke c => Ok (service c w)
  end.

Fixpoint run (evs : list Event) (w : World) : result World :=
  match evs with
  | [] => Ok w
  | ev :: evs' =>
      let! w' := handle ev w in
      run evs' w'
  end.

Definition no_hass : HomeAssistant :=
  {| written := []; published := []; subscribed := [] |}.

(** The entity as set up by [async_setup_entry] and added to the host. *)
Definition boot (name base_topic description : string) : World :=
  async_added_to_hass
    {| self := __init__ name base_topic description; hass := no_hass |}.

(** ** [config_flow.py] *)

Definition CONF_NAME : string := "name".

(** Modelled from the spec: the constant [CONF_TOPIC], which
    [config_flow.py] imports from [const.py] where it is not defined; it is
    the key of the base topic, the value of [Configuration.TOPIC] under
    which both setup functions read it. *)
Definition CONF_TOPIC : string := "topic".

Inductive FlowResult : Type :=
  | create_entry (title : string) (data : gmap string string)
  | show_form (step_id : string) (errors : gmap string string).

(** [d[k]] on a dict. *)
Definition dict_getitem (d : gmap string string) (k : string) : result string :=
  match d !! k with
  | Some v => Ok v
  | None => Raise KeyError
  end.

Definition async_step_user (user_input : option (gmap string string))
    : result FlowResult :=
  let errors : gmap string string := ∅ in
  match user_input with
  | Some input =>
      let! title := dict_getitem input CONF_NAME in
      Ok (create_entry title input)
  | None => Ok (show_form "user" errors)
  end.

(** [async_setup_entry]: the entity built from a stored entry. *)
Definition async_setup_entry (data : gmap string string)
    : result ShairportSyncMediaPlayer :=
  let! n := dict_getitem data (Configuration_str NAME) in
  let! t := dict_getitem data (Configuration_str TOPIC) in
  Ok (__init__ n t (default "" (data !! Configuration_str DESCRIPTION))).

(** [async_setup_platform]: the entity built from a YAML platform
    configuration. *)
Definition async_setup_platform (config : gmap string string)
    : result ShairportSyncMediaPlayer :=
  let! n := dict_getitem config (Configuration_str NAME) in
  let! t := dict_getitem config (Configuration_str TOPIC) in
  Ok (__init__ n t (default "" (config !! Configuration_str DESCRIPTION))).

(** * Properties *)

(** ** Strings *)

Lemma append_cons (x : ascii) (a b : string) :
  String x a ++ b = String x (a ++ b).
Proof. reflexivity. Qed.

Lemma append_assoc (a b c : string) : (a ++ b) ++ c = a ++ (b ++ c).
Proof.
  induction a as [|x a IH]; [reflexivity |].
  rewrite !append_cons. now rewrite IH.
Qed.

Lemma eqb_append_prefix (p a b : string) :
  String.eqb (p ++ a) (p ++ b) = String.eqb a b.
Proof.
  induction p as [|x p IH]; [reflexivity |].
  rewrite !append_cons. simpl. now rewrite Ascii.eqb_refl.
Qed.

Lemma append_inj_prefix (p a b : string) : p ++ a = p ++ b -> a = b.
Proof.
  intros H. apply String.eqb_eq. rewrite <- (eqb_append_prefix p).
  now apply String.eqb_eq.
Qed.

(** ** The monad *)

Lemma bind_Ok {A : Type} (r : result A) : bind r Ok = r.
Proof. now destruct r. Qed.

(** ** The topic map as suffixes of the base topic *)

Definition suffixes : list (string * (Callback * option string)) :=
  [ ("/ssnc/play_start", (cb_play, utf8));
    ("/ssnc/play_resume", (cb_play, utf8));
    ("/ssnc/play_end", (cb_pause, utf8));
    ("/ssnc/play_flush", (cb_pause, utf8));
    ("/ssnc/active_end", (cb_stop, utf8));
    ("/ssnc/cover", (cb_art, None));
    ("/ssnc/volume", (cb_vol, utf8));
    ("/ssnc/core/artist", (cb_meta "artist", utf8));
    ("/ssnc/core/album", (cb_meta "album", utf8));
    ("/ssnc/core/title", (cb_meta "title", utf8));
    ("/ssnc/core/position", (cb_position, utf8));
    ("/ssnc/core/duration", (cb_duration, utf8)) ].

Lemma ssnc_suffix e t :
  ssnc e t = _base_topic e ++ "/ssnc/" ++ TopLevelTopic_str t.
Proof. unfold ssnc, ssnc_prefix. now rewrite append_assoc. Qed.

Lemma core_suffix e t :
  core e t = _base_topic e ++ "/ssnc/core/" ++ TopLevelTopic_str t.
Proof.
  unfold core, core_prefix, ssnc_prefix. now rewrite !append_assoc.
Qed.

Lemma topic_map_suffixes e :
  topic_map e = map (fun '(s, v) => (_base_topic e ++ s, v)) suffixes.
Proof.
  unfold topic_map. rewrite !ssnc_suffix, !core_suffix. reflexivity.
Qed.

Lemma suffixes_NoDup : NoDup (map fst suffixes).
Proof.
  apply (bool_decide_unpack (NoDup (map fst suffixes))).
  vm_compute. exact I.
Qed.

Lemma topic_map_NoDup e : NoDup (map fst (topic_map e)).
Proof.
  rewrite topic_map_suffixes, map_map.
  replace (map (fun x => fst (let '(s, v) := x in (_base_topic e ++ s, v)))
             suffixes)
    with (map (fun s => _base_topic e ++ s) (map fst suffixes)).
  - apply NoDup_fmap_2; [| apply suffixes_NoDup].
    intros a b. apply append_inj_prefix.
  - rewrite map_map. apply map_ext. now intros [s v].
Qed.

(** ** What the callbacks and services leave alone *)

Definition static (w : World) :=
  (_name (self w), _base_topic (self w), _description (self w),
   _remote_topic (self w), _duration (self w), _position (self w),
   _last_position_update (self w), _subscriptions (self w),
   subscribed (hass w)).

Lemma _set_state_static new w : static (_set_state new w) = static w.
Proof. destruct new; reflexivity. Qed.

Lemma _meta_updater_static attr msg w :
  static (_meta_updater attr msg w) = static w.
Proof.
  unfold _meta_updater, on_self, setattr, static; simpl.
  repeat match goal with |- context [if ?b then _ else _] => destruct b end;
    reflexivity.
Qed.

Lemma _cb_vol_static msg w w' : _cb_vol msg w = Ok w' -> static w' = static w.
Proof.
  unfold _cb_vol.
  destruct (leading_db msg) as [db | []]; intros [= <-]; reflexivity.
Qed.

Lemma call_static cb msg w w' : call cb msg w = Ok w' -> static w' = static w.
Proof.
  destruct cb; simpl;
    try (intros [= <-];
         first [ apply _set_state_static | apply _meta_updater_static
               | reflexivity ]).
  apply _cb_vol_static.
Qed.

Lemma service_static c w : static (service c w) = static w.
Proof. destruct c; reflexivity. Qed.

(** ** Routing of inbound messages *)

(** The entity's subscriptions are those of its topic map. *)
Definition wired (w : World) : Prop :=
  subscribed (hass w) = map subscription (topic_map (self w)).

Lemma wired_static w w' : static w' = static w -> wired w -> wired w'.
Proof.
  unfold wired, static. intros [= ? Hb ? ? ? ? ? ? Hs] Hw.
  rewrite Hs, Hw, !topic_map_suffixes, Hb. reflexivity.
Qed.

Lemma deliver_miss t raw subs r :
  Forall (fun s => on_topic t s = false) subs ->
  fold_left (deliver t raw) subs r = r.
Proof.
  intros H. revert r. induction H as [|s subs Hs _ IH]; intros r; simpl.
  - reflexivity.
  - rewrite IH. unfold deliver. rewrite Hs. apply bind_Ok.
Qed.

(** *** Topic levels *)

Lemma split_nonempty sep s : split sep s <> [].
Proof.
  destruct s as [|a s]; simpl; [discriminate |].
  destruct (Ascii.eqb a sep); [discriminate |].
  destruct (split sep s); discriminate.
Qed.

Lemma split_app_sep sep a b :
  split sep (a ++ String sep b) = (split sep a ++ split sep b)%list.
Proof.
  induction a as [|c a IH].
  - change ("" ++ String sep b) with (String sep b).
    cbn [split app]. now rewrite Ascii.eqb_refl.
  - rewrite append_cons. cbn [split]. rewrite IH.
    destruct (Ascii.eqb c sep); [reflexivity |].
    destruct (split sep a) as [|h t] eqn:E; [| reflexivity].
    now apply split_nonempty in E.
Qed.

Lemma split_inj sep a b : split sep a = split sep b -> a = b.
Proof.
  revert b. induction a as [|c a IH]; intros [|c' b]; cbn [split].
  - reflexivity.
  - destruct (Ascii.eqb c' sep).
    + intros [= H]. symmetry in H. now apply split_nonempty in H.
    + destruct (split sep b); discriminate.
  - destruct (Ascii.eqb c sep).
    + intros [= H]. now apply split_nonempty in H.
    + destruct (split sep a); discriminate.
  - destruct (Ascii.eqb c sep) eqn:Ec, (Ascii.eqb c' sep) eqn:Ec'.
    + apply Ascii.eqb_eq in Ec as ->, Ec' as ->.
      intros [= H]. now rewrite (IH b H).
    + destruct (split sep b); discriminate.
    + destruct (split sep a); discriminate.
    + pose proof (split_nonempty sep a) as Ha.
      pose proof (split_nonempty sep b) as Hb.
      specialize (IH b).
      destruct (split sep a) as [|h t]; [contradiction |].
      destruct (split sep b) as [|h' t']; [contradiction |].
      intros [= -> -> ->]. now rewrite (IH eq_refl).
Qed.

Lemma skipn_length_app {A : Type} (l l' : list A) :
  skipn (length l) (l ++ l') = l'.
Proof. induction l as [|x l IH]; [reflexivity | exact IH]. Qed.

(** A level that is no wildcard. *)
Definition is_plain (f : string) : bool :=
  negb (String.eqb f "+" || String.eqb f "#").

Lemma match_plain wild S TS :
  forallb is_plain S = true ->
  match_levels wild S TS = true <-> TS = S.
Proof.
  revert wild TS. induction S as [|f S IH]; intros wild TS Hp.
  - destruct TS; cbn; split; congruence.
  - cbn [forallb] in Hp. apply andb_prop in Hp as [Hf HS].
    unfold is_plain in Hf. apply negb_true_iff, orb_false_iff in Hf
      as [Hplus Hhash].
    cbn [match_levels]. rewrite Hplus, Hhash. cbn [andb orb].
    rewrite orb_false_r. destruct TS as [|t TS]; [split; congruence |].
    rewrite orb_false_r, andb_true_iff, (IH true TS HS), String.eqb_eq.
    split; [intros [-> ->]; reflexivity | intros [= -> ->]; auto].
Qed.

Lemma app_tail_not_nil {A : Type} (L S : list A) :
  S <> [] ->
  match (L ++ S)%list with [] => true | _ :: _ => false end = false.
Proof. destruct L; [now destruct S | reflexivity]. Qed.

Lemma match_prefix_self wild L S S' :
  S <> [] -> forallb is_plain S = true ->
  match_levels wild (L ++ S) (L ++ S') = true <-> S' = S.
Proof.
  intros Hne Hp. revert wild. induction L as [|f L IH]; intros wild.
  - now apply match_plain.
  - cbn [app match_levels]. rewrite String.eqb_refl. cbn [orb andb].
    rewrite (app_tail_not_nil L S Hne), andb_false_r, orb_false_r.
    apply IH.
Qed.

Lemma match_prefix_key wild L S TS :
  S <> [] -> forallb is_plain S = true ->
  match_levels wild (L ++ S) TS = true -> skipn (length L) TS = S.
Proof.
  intros Hne Hp. revert wild TS. induction L as [|f L IH]; intros wild TS.
  - intros H. now apply (match_plain wild S TS Hp) in H.
  - cbn [app match_levels length skipn].
    rewrite (app_tail_not_nil L S Hne), andb_false_r, orb_false_r.
    destruct TS as [|t TS]; [discriminate |].
    intros H. apply andb_prop in H as [_ H]. now apply IH in H.
Qed.

(** *** The suffix table as filters *)

(** The text after the leading slash of a suffix. *)
Definition tail_of (s : string) : string :=
  match s with
  | String _ r => r
  | EmptyString => EmptyString
  end.

Definition good_suffix (s : string) : bool :=
  match s with
  | String c r => Ascii.eqb c "/" && forallb is_plain (split "/" r)
  | EmptyString => false
  end.

Lemma good_suffix_inv s :
  good_suffix s = true ->
  s = String "/" (tail_of s)
  /\ forallb is_plain (split "/" (tail_of s)) = true.
Proof.
  destruct s as [|c r]; [discriminate |]. cbn [good_suffix tail_of].
  intros H. apply andb_prop in H as [Hc Hp].
  apply Ascii.eqb_eq in Hc as ->. now split.
Qed.

Definition entry_levels (item : string * (Callback * option string))
    : list string :=
  split "/" (tail_of (fst item)).

Lemma suffixes_good : forallb (fun item => good_suffix (fst item)) suffixes = true.
Proof. vm_compute. reflexivity. Qed.

Lemma suffixes_levels_NoDup : NoDup (map entry_levels suffixes).
Proof.
  apply (bool_decide_unpack (NoDup (map entry_levels suffixes))).
  vm_compute. exact I.
Qed.

Definition filter_of (base : string)
    (item : string * (Callback * option string)) : Subscription :=
  subscription (let '(s, v) := item in (base ++ s, v)).

Lemma filter_of_topic base item :
  sub_topic (filter_of base item) = base ++ fst item.
Proof. now destruct item as [s [cb enc]]. Qed.

(** A message on [base ++ "/" ++ r'] is received by the subscription for
    the suffix ["/" ++ r] exactly when [r = r']. *)
Lemma on_topic_suffix base r r' item :
  fst item = String "/" r ->
  forallb is_plain (split "/" r) = true ->
  on_topic (base ++ String "/" r') (filter_of base item) = String.eqb r r'.
Proof.
  intros Hs Hp. unfold on_topic, receives.
  rewrite filter_of_topic, Hs.
  destruct (has_wildcard (base ++ String "/" r)).
  - unfold topic_matches. rewrite !split_app_sep.
    apply Bool.eq_iff_eq_true.
    rewrite match_prefix_self; [| apply split_nonempty | exact Hp].
    rewrite String.eqb_eq. split.
    + intros H. symmetry. now apply (split_inj "/").
    + now intros ->.
  - rewrite eqb_append_prefix. cbn [String.eqb].
    now rewrite Ascii.eqb_refl.
Qed.

(** Whatever topic a subscription of the table receives, the topic's
    levels past those of the base topic are the levels of the suffix. *)
Lemma on_topic_key base t item :
  good_suffix (fst item) = true ->
  on_topic t (filter_of base item) = true ->
  skipn (length (split "/" base)) (split "/" t) = entry_levels item.
Proof.
  intros Hg. apply good_suffix_inv in Hg as [Hs Hp].
  unfold on_topic, receives, entry_levels. rewrite filter_of_topic, Hs.
  cbn [tail_of].
  destruct (has_wildcard (base ++ String "/" (tail_of (fst item)))).
  - unfold topic_matches. rewrite split_app_sep.
    apply match_prefix_key; [apply split_nonempty | exact Hp].
  - intros H. apply String.eqb_eq in H as <-.
    rewrite split_app_sep. apply skipn_length_app.
Qed.

Lemma deliver_table base t raw l w :
  forallb (fun item => good_suffix (fst item)) l = true ->
  NoDup (map entry_levels l) ->
  fold_left (deliver t raw) (map (filter_of base) l) (Ok w) =
  match find (on_topic t) (map (filter_of base) l) with
  | Some s =>
      call (sub_callback s)
        {| topic := t; payload := decode (sub_encoding s) raw |} w
  | None => Ok w
  end.
Proof.
  induction l as [|item l IH]; intros Hg Hnd; [reflexivity |].
  cbn [forallb] in Hg. apply andb_prop in Hg as [Hitem Hl].
  cbn [map] in Hnd. inversion Hnd as [|? ? Hnotin Hnd']; subst.
  cbn [map fold_left find]. cbn [deliver bind].
  destruct (on_topic t (filter_of base item)) eqn:E.
  - apply deliver_miss. apply Forall_forall. intros s' Hin.
    apply list_elem_of_In, in_map_iff in Hin as [item' [<- Hin']].
    apply not_true_is_false. intros E'.
    apply Hnotin.
    rewrite <- (on_topic_key base t item Hitem E).
    rewrite (on_topic_key base t item'
               (proj1 (forallb_forall _ l) Hl item' Hin') E').
    apply list_elem_of_In. now apply in_map.
  - now apply IH.
Qed.

Lemma wired_filters w :
  wired w -> subscribed (hass w) = map (filter_of (_base_topic (self w))) suffixes.
Proof.
  intros Hw. rewrite Hw, topic_map_suffixes, map_map. reflexivity.
Qed.

Lemma mqtt_receive_find t raw w :
  wired w ->
  mqtt_receive t raw w =
  match find (on_topic t) (subscribed (hass w)) with
  | Some s =>
      call (sub_callback s)
        {| topic := t; payload := decode (sub_encoding s) raw |} w
  | None => Ok w
  end.
Proof.
  intros Hw. unfold mqtt_receive. rewrite (wired_filters w Hw).
  apply deliver_table; [apply suffixes_good | apply suffixes_levels_NoDup].
Qed.

(** The route of a suffix of the base topic. *)
Definition route (suffix : string) : option (Callback * option string) :=
  option_map snd (find (fun '(s, _) => String.eqb s suffix) suffixes).

Lemma mqtt_receive_route r' raw w :
  wired w ->
  mqtt_receive (_base_topic (self w) ++ String "/" r') raw w =
  match route (String "/" r') with
  | Some (cb, enc) =>
      call cb {| topic := _base_topic (self w) ++ String "/" r';
                 payload := decode enc raw |} w
  | None => Ok w
  end.
Proof.
  intros Hw. rewrite (mqtt_receive_find _ _ _ Hw), (wired_filters w Hw).
  unfold route. pose proof suffixes_good as Hg. revert Hg.
  generalize suffixes as l.
  induction l as [|[s [cb enc]] l IH]; intros Hg; [reflexivity |].
  cbn [forallb fst] in Hg. apply andb_prop in Hg as [Hs Hl].
  apply good_suffix_inv in Hs as [Hs Hp].
  cbn [map find].
  rewrite (on_topic_suffix _ (tail_of s) r' (s, (cb, enc)) Hs Hp).
  destruct s as [|c r]; [discriminate Hs |]. cbn [tail_of] in *.
  injection Hs as ->. cbn [String.eqb]. rewrite Ascii.eqb_refl.
  destruct (String.eqb r r'); [reflexivity | now apply IH].
Qed.

Lemma route_ssnc t :
  route ("/ssnc/" ++ TopLevelTopic_str t) =
  match t with
  | PLAY_START | PLAY_RESUME => Some (cb_play, utf8)
  | PLAY_END | PLAY_FLUSH => Some (cb_pause, utf8)
  | ACTIVE_END => Some (cb_stop, utf8)
  | COVER => Some (cb_art, None)
  | VOLUME => Some (cb_vol, utf8)
  | _ => None
  end.
Proof. destruct t; reflexivity. Qed.

Lemma route_core t :
  route ("/ssnc/core/" ++ TopLevelTopic_str t) =
  match t with
  | ARTIST => Some (cb_meta "artist", utf8)
  | ALBUM => Some (cb_meta "album", utf8)
  | TITLE => Some (cb_meta "title", utf8)
  | POSITION => Some (cb_position, utf8)
  | DURATION => Some (cb_duration, utf8)
  | _ => None
  end.
Proof. destruct t; reflexivity. Qed.

Lemma receive_ssnc t raw w :
  wired w ->
  mqtt_receive (ssnc (self w) t) raw w =
  match route ("/ssnc/" ++ TopLevelTopic_str t) with
  | Some (cb, enc) =>
      call cb {| topic := ssnc (self w) t; payload := decode enc raw |} w
  | None => Ok w
  end.
Proof.
  intros Hw. rewrite ssnc_suffix.
  apply (mqtt_receive_route ("ssnc/" ++ TopLevelTopic_str t) raw w Hw).
Qed.

Lemma receive_core t raw w :
  wired w ->
  mqtt_receive (core (self w) t) raw w =
  match route ("/ssnc/core/" ++ TopLevelTopic_str t) with
  | Some (cb, enc) =>
      call cb {| topic := core (self w) t; payload := decode enc raw |} w
  | None => Ok w
  end.
Proof.
  intros Hw. rewrite core_suffix.
  apply (mqtt_receive_route ("ssnc/core/" ++ TopLevelTopic_str t) raw w Hw).
Qed.

(** ** Reachable worlds *)

Definition reachable (w : World) : Prop :=
  exists (n b d : string) (evs : list Event), run evs (boot n b d) = Ok w.

Definition is_bytes (p : option Payload) : Prop :=
  match p with
  | Some (Text _) => False
  | _ => True
  end.

Record invariant (w : World) : Prop := {
  inv_wired : wired w;
  inv_state : _state (self w) = IDLE \/ _state (self w) = PLAYING
              \/ _state (self w) = PAUSED;
  inv_duration : _duration (self w) = None;
  inv_position : _position (self w) = None;
  inv_image : is_bytes (_media_image (self w));
  inv_remote : _remote_topic (self w) = _base_topic (self w) ++ "/ssnc/remote"
}.

Lemma boot_wired n b d : wired (boot n b d).
Proof. reflexivity. Qed.

Lemma boot_invariant n b d : invariant (boot n b d).
Proof.
  split; try reflexivity; simpl; auto using boot_wired.
Qed.

Lemma float_raises e s : float s = Raise e -> e = ValueError.
Proof.
  unfold float, FloatParse.float_of_ascii.
  repeat match goal with
         | |- context [match ?x with _ => _ end] => destruct x
         end; congruence.
Qed.

Lemma leading_db_text t s e :
  leading_db {| topic := t; payload := Text s |} = Raise e -> e = ValueError.
Proof.
  unfold leading_db; simpl. unfold getitem.
  destruct (split "," s) as [|tok rest] eqn:E.
  - now apply split_nonempty in E.
  - simpl. apply float_raises.
Qed.

Lemma call_invariant cb enc t raw w :
  In (cb, enc) (map snd suffixes) ->
  invariant w ->
  exists w', call cb {| topic := t; payload := decode enc raw |} w = Ok w'
             /\ invariant w'.
Proof.
  intros Hin [Hw Hs Hd Hp Hi Hr].
  assert (Hkeep : forall w', static w' = static w ->
            (_state (self w') = IDLE \/ _state (self w') = PLAYING
             \/ _state (self w') = PAUSED) ->
            is_bytes (_media_image (self w')) -> invariant w').
  { intros w' Hst Hs' Hi'. pose proof (wired_static _ _ Hst Hw) as Hw'.
    unfold static in Hst. injection Hst as Hn Hb Hde Hre Hdu Hpo _ _ _.
    split; try assumption; congruence. }
  simpl in Hin.
  repeat (destruct Hin as [Hin | Hin]; [injection Hin as <- <- |]);
    try contradiction; simpl.
  1-5: eexists; split; [reflexivity |]; apply Hkeep;
       [apply _set_state_static | simpl; auto | simpl; auto].
  - eexists; split; [reflexivity |]. apply Hkeep; simpl; auto.
  - unfold _cb_vol.
    destruct (leading_db _) as [db | e] eqn:E.
    + eexists; split; [reflexivity |]. apply Hkeep; simpl; auto.
    + apply leading_db_text in E as ->. eexists; split; [reflexivity |].
      now split.
  - eexists; split; [reflexivity |]. apply Hkeep; simpl; auto.
  - eexists; split; [reflexivity |]. apply Hkeep; simpl; auto.
  - eexists; split; [reflexivity |]. apply Hkeep; simpl; auto.
  - eexists; split; [reflexivity |]. now split.
  - eexists; split; [reflexivity |]. now split.
Qed.

Lemma subscribed_routes w s :
  wired w -> In s (subscribed (hass w)) ->
  In (sub_callback s, sub_encoding s) (map snd suffixes).
Proof.
  intros Hw Hin. rewrite Hw, topic_map_suffixes, map_map in Hin.
  apply in_map_iff in Hin as [[suf [cb enc]] [<- Hin]].
  change (In (snd (suf, (cb, enc))) (map snd suffixes)).
  now apply in_map.
Qed.

Lemma handle_invariant ev w :
  invariant w -> exists w', handle ev w = Ok w' /\ invariant w'.
Proof.
  intros Hinv. destruct ev as [t raw | c]; simpl.
  - rewrite mqtt_receive_find by apply Hinv.
    destruct (find (on_topic t) (subscribed (hass w))) as [s|] eqn:E.
    + apply find_some in E as [Hin _].
      apply call_invariant; [| assumption].
      eapply subscribed_routes; [apply Hinv | exact Hin].
    + now exists w.
  - exists (service c w). split; [reflexivity |].
    destruct Hinv as [Hw Hs Hd Hp Hi Hr].
    pose proof (service_static c w) as Hst.
    pose proof (wired_static _ _ Hst Hw) as Hw'.
    destruct c; now split.
Qed.

(** Every run of events from an invariant world ends, without an
    exception, in an invariant world. *)
Lemma run_invariant evs w :
  invariant w -> exists w', run evs w = Ok w' /\ invariant w'.
Proof.
  revert w. induction evs as [|ev evs IH]; intros w Hinv; simpl.
  - now exists w.
  - destruct (handle_invariant ev w Hinv) as [w1 [-> Hinv1]]. simpl.
    now apply IH.
Qed.

Lemma reachable_invariant w : reachable w -> invariant w.
Proof.
  intros (n & b & d & evs & Hrun).
  destruct (run_invariant evs _ (boot_invariant n b d)) as [w' [Hrun' Hinv]].
  congruence.
Qed.

(** ** Volume: clamping on finite and infinite readings *)

Definition clamp (db : pyfloat) : pyfloat := py_max (py_min db _MAX_DB) _MIN_DB.

Lemma clamp_between db :
  is_nan db = false -> between (-30) 0 (clamp db).
Proof.
  destruct db as [| [|] | q]; intros Hn; try discriminate;
    unfold clamp, py_min, py_max, gt; simpl.
  - split; lra.
  - split; lra.
  - destruct (Qlt_le_dec 0 q) as [H0 | H0]; simpl.
    + split; lra.
    + destruct (Qlt_le_dec q (-30)) as [H1 | H1]; simpl; split; lra.
Qed.

Lemma fraction_between q :
  (-30 <= q <= 0)%Q ->
  exists f, div (sub (PFin q) _MIN_DB) _DB_RANGE = Ok (PFin f)
            /\ (f == (q + 30) / 30)%Q /\ (0 <= f <= 1)%Q.
Proof.
  intros [Hlo Hhi]. eexists. split; [reflexivity |].
  assert (E : (Qred (Qred (q - -30) / Qred (0 - -30)) == (q + 30) / 30)%Q).
  { rewrite !Qred_correct. field. }
  split; [exact E |]. rewrite E.
  split.
  - apply Qle_shift_div_l; lra.
  - apply Qle_shift_div_r; lra.
Qed.

Lemma receive_volume raw w :
  wired w ->
  mqtt_receive (ssnc (self w) VOLUME) raw w =
  _cb_vol {| topic := ssnc (self w) VOLUME;
             payload := Text (string_of_list_byte raw) |} w.
Proof. intros Hw. now rewrite receive_ssnc. Qed.

(** A reading that is not NaN is stored clamped to [-30, 0], and the
    exposed fraction is [(clamped + 30) / 30], within [0, 1]. *)
Lemma volume_reading_clamped w raw tok db :
  wired w ->
  getitem (split "," (string_of_list_byte raw)) 0 = Ok tok ->
  float tok = Ok db ->
  is_nan db = false ->
  exists w' c f,
    mqtt_receive (ssnc (self w) VOLUME) raw w = Ok w'
    /\ _volume_db (self w') = Some (PFin c) /\ (-30 <= c <= 0)%Q
    /\ volume_level (self w') = Ok (Some (PFin f))
    /\ (f == (c + 30) / 30)%Q /\ (0 <= f <= 1)%Q.
Proof.
  intros Hw Htok Hdb Hnan. rewrite receive_volume by assumption.
  unfold _cb_vol, leading_db; simpl. rewrite Htok; simpl. rewrite Hdb.
  pose proof (clamp_between db Hnan) as Hc. unfold clamp in Hc.
  destruct (py_max (py_min db _MAX_DB) _MIN_DB) as [| ? | c] eqn:E;
    try contradiction.
  destruct (fraction_between c Hc) as [f [Hf [Hfe Hfr]]].
  eexists; exists c, f. split; [reflexivity |].
  split; [reflexivity |]. split; [exact Hc |].
  split; [| split; assumption].
  unfold volume_level. cbn [self on_self async_write_ha_state _volume_db
                              set_volume_db].
  now rewrite Hf.
Qed.

Lemma volume_level_absent e : _volume_db e = None -> volume_level e = Ok None.
Proof. unfold volume_level. now intros ->. Qed.

(** The specification's sample reading: [-15.0,0,0,0] is shown as 0.5. *)
Example volume_minus_15 :
  exists w',
    mqtt_receive (ssnc (self (boot "player" "shairport" "")) VOLUME)
      (list_byte_of_string "-15.0,0,0,0") (boot "player" "shairport" "")
    = Ok w'
    /\ _volume_db (self w') = Some (PFin (-15))
    /\ volume_level (self w') = Ok (Some (PFin (1 # 2))).
Proof.
  rewrite receive_volume by apply boot_wired.
  unfold _cb_vol, leading_db.
  cbn [payload]. rewrite string_of_list_byte_of_string.
  change (split "," "-15.0,0,0,0") with ["-15.0"; "0"; "0"; "0"].
  cbn [getitem nth_error bind].
  replace (float "-15.0") with (Ok (PFin (-15))) by (vm_compute; reflexivity).
  eexists. split; [reflexivity |]. split; reflexivity.
Qed.

(** Readings beyond the range, infinite ones included, are clamped. *)
Example clamp_samples :
  map (fun s => match float s with Ok db => Some (clamp db) | Raise _ => None end)
    ["5"; "-144.0"; "inf"; "-Infinity"; "1e400"; "-7.25"; "nan"; "banana"]
  = [Some (PFin 0); Some (PFin (-30)); Some (PFin 0); Some (PFin (-30));
     Some (PFin 0); Some (PFin (-29 # 4)); Some PNaN; None].
Proof. vm_compute. reflexivity. Qed.

(** * Main results *)

(** ** Volume *)

(** C1.  The payload [nan] is accepted by [float], passes through
    [max(min(db, 0.0), -30.0)] unchanged because every comparison with NaN
    is false, and is stored: the stored decibel value and the exposed
    fraction are then NaN, outside [-30, 0] and [0, 1]. *)
Theorem volume_nan_escapes_clamp (n b d : string) :
  exists w',
    mqtt_receive (ssnc (self (boot n b d)) VOLUME)
      (list_byte_of_string "nan") (boot n b d) = Ok w'
    /\ _volume_db (self w') = Some PNaN
    /\ ~ between (-30) 0 PNaN
    /\ volume_level (self w') = Ok (Some PNaN)
    /\ ~ between 0 1 PNaN.
Proof.
  rewrite receive_volume by apply boot_wired.
  unfold _cb_vol, leading_db.
  cbn [payload]. rewrite string_of_list_byte_of_string.
  change (split "," "nan") with ["nan"]. cbn [getitem nth_error bind].
  replace (float "nan") with (Ok PNaN) by (vm_compute; reflexivity).
  eexists. split; [reflexivity |].
  repeat split; auto.
Qed.

(** C5.  A volume message whose leading comma-separated token is rejected
    by [float] is dropped: no exception leaves the callback and the world
    is the one before the message, so the stored decibel value and the
    exposed fraction are unchanged and no state is written. *)
Theorem volume_parse_failure_ignored w raw tok e :
  wired w ->
  getitem (split "," (string_of_list_byte raw)) 0 = Ok tok ->
  float tok = Raise e ->
  mqtt_receive (ssnc (self w) VOLUME) raw w = Ok w
  /\ forall w', mqtt_receive (ssnc (self w) VOLUME) raw w = Ok w' ->
       _volume_db (self w') = _volume_db (self w)
       /\ volume_level (self w') = volume_level (self w)
       /\ written (hass w') = written (hass w).
Proof.
  intros Hw Htok Hf.
  assert (H : mqtt_receive (ssnc (self w) VOLUME) raw w = Ok w).
  { rewrite receive_volume by assumption.
    unfold _cb_vol, leading_db; simpl. rewrite Htok; simpl. rewrite Hf.
    now rewrite (float_raises _ _ Hf). }
  split; [exact H |]. intros w' H'. rewrite H in H'.
  injection H' as <-. auto.
Qed.

Lemma volume_parse_failure_ignored_witness :
  mqtt_receive (ssnc (self (boot "Kitchen" "shairport" "AirPlay")) VOLUME)
    (list_byte_of_string "banana") (boot "Kitchen" "shairport" "AirPlay")
  = Ok (boot "Kitchen" "shairport" "AirPlay").
Proof.
  apply (volume_parse_failure_ignored
           (boot "Kitchen" "shairport" "AirPlay")
           (list_byte_of_string "banana") "banana" ValueError);
    reflexivity.
Defined.

(** ** Configuration flow *)

Definition empty_topic_input : gmap string string :=
  {[ "name" := "Living room"; "topic" := "" ]}.

Definition empty_name_input : gmap string string :=
  {[ "name" := ""; "topic" := "shairport" ]}.

(** C2.  The flow step does not do what the claim says: a submission whose
    base topic is the empty string is not answered with the form and an
    error, it creates the entry, and the entry sets up an entity whose
    base topic is empty; a submission with an empty display name creates
    an entry too.  The YAML path, by contrast, passes the topic through
    [valid_publish_topic]. *)
Theorem empty_field_creates_entry :
  (empty_topic_input !! Configuration_str TOPIC = Some ""
   /\ async_step_user (Some empty_topic_input)
      = Ok (create_entry "Living room" empty_topic_input)
   /\ (forall step errors,
         async_step_user (Some empty_topic_input)
         <> Ok (show_form step errors))
   /\ exists e, async_setup_entry empty_topic_input = Ok e
                /\ _base_topic e = "")
  /\ (empty_name_input !! CONF_NAME = Some ""
      /\ async_step_user (Some empty_name_input)
         = Ok (create_entry "" empty_name_input)).
Proof.
  assert (H : async_step_user (Some empty_topic_input)
              = Ok (create_entry "Living room" empty_topic_input))
    by reflexivity.
  split.
  - split; [reflexivity |]. split; [exact H |]. split.
    + intros step errors. rewrite H. discriminate.
    + eexists. split; reflexivity.
  - split; reflexivity.
Qed.

(** The step in general: a submission that carries a display-name key
    creates an entry titled with that name and holding the input as it
    is; the form is answered only when nothing was submitted, and then
    with an empty error map. *)
Lemma submission_creates_entry_unvalidated
    (input : gmap string string) (title : string) :
  input !! CONF_NAME = Some title ->
  async_step_user (Some input) = Ok (create_entry title input)
  /\ forall user_input step errors,
       async_step_user user_input = Ok (show_form step errors) ->
       user_input = None /\ step = "user" /\ errors = ∅.
Proof.
  intros Hname. split.
  - unfold async_step_user, dict_getitem. now rewrite Hname.
  - intros [inp|] step errors; unfold async_step_user, dict_getitem.
    + destruct (inp !! CONF_NAME); discriminate.
    + intros [= <- <-]. auto.
Qed.

(** ** Playback status *)

(** The state machine as the specification words it, over the topic
    segments that carry its signals. *)
Inductive spec_step : MediaPlayerState -> TopLevelTopic -> MediaPlayerState -> Prop :=
  | idle_play_start : spec_step IDLE PLAY_START PLAYING
  | idle_play_resume : spec_step IDLE PLAY_RESUME PLAYING
  | playing_active_end : spec_step PLAYING ACTIVE_END IDLE
  | paused_active_end : spec_step PAUSED ACTIVE_END IDLE
  | playing_play_end : spec_step PLAYING PLAY_END PAUSED
  | playing_play_flush : spec_step PLAYING PLAY_FLUSH PAUSED
  | paused_play_start : spec_step PAUSED PLAY_START PLAYING
  | paused_play_resume : spec_step PAUSED PLAY_RESUME PLAYING.

Lemma receive_status t raw w :
  wired w ->
  mqtt_receive (ssnc (self w) t) raw w =
  match t with
  | PLAY_START | PLAY_RESUME => Ok (_set_state PLAYING w)
  | PLAY_END | PLAY_FLUSH => Ok (_set_state PAUSED w)
  | ACTIVE_END => Ok (_set_state IDLE w)
  | _ => mqtt_receive (ssnc (self w) t) raw w
  end.
Proof. intros Hw. destruct t; trivial; now rewrite receive_ssnc. Qed.

Lemma _set_state_state new w : _state (self (_set_state new w)) = new.
Proof. now destruct new. Qed.

(** A status message on a wired world: route it, name the world it
    yields and read the status off [_set_state]. *)
Ltac fire :=
  rewrite receive_status by assumption;
  eexists; (split; [reflexivity | apply _set_state_state]).

Lemma status_reachable (s : MediaPlayerState) :
  s = IDLE \/ s = PLAYING \/ s = PAUSED ->
  exists w, reachable w /\ _state (self w) = s.
Proof.
  set (w0 := boot "player" "shairport" "").
  assert (Hw0 : wired w0) by apply boot_wired.
  intros [-> | [-> | ->]].
  - exists w0. split; [| reflexivity]. now exists "player", "shairport", "", [].
  - exists (_set_state PLAYING w0). split; [| apply _set_state_state].
    exists "player", "shairport", "", [Inbound (ssnc (self w0) PLAY_START) []].
    fold w0. cbn [run handle]. now rewrite receive_status.
  - exists (_set_state PAUSED w0). split; [| apply _set_state_state].
    exists "player", "shairport", "", [Inbound (ssnc (self w0) PLAY_END) []].
    fold w0. cbn [run handle]. now rewrite receive_status.
Qed.

(** The step relation the callbacks implement: the topic map binds each
    signal to a callback that sets the status whatever it was. *)
Inductive code_step : MediaPlayerState -> TopLevelTopic -> MediaPlayerState -> Prop :=
  | any_play_start s : code_step s PLAY_START PLAYING
  | any_play_resume s : code_step s PLAY_RESUME PLAYING
  | any_play_end s : code_step s PLAY_END PAUSED
  | any_play_flush s : code_step s PLAY_FLUSH PAUSED
  | any_active_end s : code_step s ACTIVE_END IDLE.

Lemma spec_step_code_step s t s' : spec_step s t s' -> code_step s t s'.
Proof. destruct 1; constructor. Qed.

(** C3, as stated, fails: the status does not evolve by the listed steps
    alone.  The idle entity becomes paused on [play_end], and the list has
    no step from idle on [play_end]. *)
Lemma idle_play_end_unlisted :
  _state (self (boot "player" "shairport" "")) = IDLE
  /\ (exists w',
        mqtt_receive (ssnc (self (boot "player" "shairport" "")) PLAY_END) []
          (boot "player" "shairport" "") = Ok w'
        /\ _state (self w') = PAUSED)
  /\ ~ spec_step IDLE PLAY_END PAUSED.
Proof.
  split; [reflexivity |]. split.
  - rewrite receive_status by apply boot_wired.
    eexists. split; [reflexivity | apply _set_state_state].
  - intros H. inversion H.
Qed.

(** Every change of the status is a step of [code_step], made by a
    message that the subscription of the step's signal receives. *)
Lemma status_change_is_step ev w w' :
  wired w ->
  handle ev w = Ok w' ->
  _state (self w') = _state (self w)
  \/ exists t topic raw,
       ev = Inbound topic raw
       /\ receives (ssnc (self w) t) topic = true
       /\ code_step (_state (self w)) t (_state (self w')).
Proof.
  intros Hw. destruct ev as [topic raw | c]; cbn [handle].
  2: { intros [= <-]. left. now destruct c. }
  rewrite (mqtt_receive_find _ _ _ Hw).
  destruct (find (on_topic topic) (subscribed (hass w))) as [s|] eqn:E.
  2: { intros [= <-]. now left. }
  apply find_some in E as [Hin Hon]. rewrite Hw in Hin.
  apply in_map_iff in Hin as [item [<- Hin]].
  unfold topic_map in Hin. cbn [In] in Hin.
  repeat (destruct Hin as [Hin | Hin]; [subst item |]);
    try contradiction; cbn [subscription sub_callback sub_encoding call].
  1-5: intros [= <-]; right; eexists; exists topic, raw;
       (split; [reflexivity |]); (split; [exact Hon |]);
       unfold _cb_play, _cb_pause, _cb_stop; rewrite _set_state_state;
       constructor.
  - intros [= <-]. now left.
  - unfold _cb_vol. destruct (leading_db _) as [db | []];
      intros [= <-]; now left.
  - intros [= <-]. now left.
  - intros [= <-]. now left.
  - intros [= <-]. now left.
  - intros [= <-]. now left.
  - intros [= <-]. now left.
Qed.

(** C3, amended.  The status starts as idle; in every reachable world it
    is idle, playing or paused, and each of the three is reached; and it
    evolves by the step relation [code_step]: from any status, playing on
    [play_start] or [play_resume], paused on [play_end] or [play_flush],
    idle on [active_end].  Each such step is taken, the steps the
    specification lists are among them, and every change of the status is
    such a step. *)
Theorem status_evolution :
  (forall n b d, _state (self (boot n b d)) = IDLE)
  /\ (forall w, reachable w ->
        _state (self w) = IDLE \/ _state (self w) = PLAYING
        \/ _state (self w) = PAUSED)
  /\ (forall s, s = IDLE \/ s = PLAYING \/ s = PAUSED ->
        exists w, reachable w /\ _state (self w) = s)
  /\ (forall w s t s' raw,
        wired w -> _state (self w) = s -> code_step s t s' ->
        exists w', mqtt_receive (ssnc (self w) t) raw w = Ok w'
                   /\ _state (self w') = s')
  /\ (forall s t s', spec_step s t s' -> code_step s t s')
  /\ (forall ev w w',
        wired w -> handle ev w = Ok w' ->
        _state (self w') = _state (self w)
        \/ exists t topic raw,
             ev = Inbound topic raw
             /\ receives (ssnc (self w) t) topic = true
             /\ code_step (_state (self w)) t (_state (self w'))).
Proof.
  split; [reflexivity |]. split; [| split; [| split; [| split]]].
  - intros w Hr. apply reachable_invariant in Hr. apply Hr.
  - apply status_reachable.
  - intros w s t s' raw Hw _ Hstep. destruct Hstep; fire.
  - apply spec_step_code_step.
  - apply status_change_is_step.
Qed.

Lemma status_evolution_witness :
  exists w',
    mqtt_receive (ssnc (self (boot "player" "shairport" "")) PLAY_END) []
      (boot "player" "shairport" "") = Ok w'
    /\ _state (self w') = PAUSED.
Proof.
  apply (proj1 (proj2 (proj2 (proj2 status_evolution)))
           (boot "player" "shairport" "") IDLE PLAY_END PAUSED []).
  - apply boot_wired.
  - reflexivity.
  - constructor.
Defined.

(** Whatever the status before, [play_start] then [active_end] leaves the
    entity playing and then idle, and the update that makes it idle is one
    written state in which title, artist, album, artwork and volume are
    all cleared. *)
Lemma play_start_then_active_end w raw1 raw2 :
  wired w ->
  exists w1 w2,
    mqtt_receive (ssnc (self w) PLAY_START) raw1 w = Ok w1
    /\ mqtt_receive (ssnc (self w1) ACTIVE_END) raw2 w1 = Ok w2
    /\ _state (self w1) = PLAYING /\ _state (self w2) = IDLE
    /\ _title (self w2) = None /\ _artist (self w2) = None
    /\ _album (self w2) = None /\ _media_image (self w2) = None
    /\ _volume_db (self w2) = None
    /\ written (hass w2) = self w2 :: written (hass w1).
Proof.
  intros Hw.
  assert (Hw1 : wired (_set_state PLAYING w))
    by (eapply wired_static; [apply _set_state_static | exact Hw]).
  exists (_set_state PLAYING w), (_set_state IDLE (_set_state PLAYING w)).
  split; [now rewrite receive_status |].
  split; [now rewrite receive_status |].
  repeat split.
Qed.

(** C4, as stated, fails: a world whose status is not idle does not go
    through idle, playing, idle; from playing the statuses are playing,
    playing, idle. *)
Lemma non_idle_start_trajectory :
  let w := _set_state PLAYING (boot "player" "shairport" "") in
  wired w /\ _state (self w) <> IDLE
  /\ exists w1 w2,
       mqtt_receive (ssnc (self w) PLAY_START) [] w = Ok w1
       /\ mqtt_receive (ssnc (self w1) ACTIVE_END) [] w1 = Ok w2
       /\ [_state (self w); _state (self w1); _state (self w2)]
          = [PLAYING; PLAYING; IDLE]
       /\ [_state (self w); _state (self w1); _state (self w2)]
          <> [IDLE; PLAYING; IDLE].
Proof.
  intros w.
  assert (Hw : wired w)
    by (eapply wired_static; [apply _set_state_static | apply boot_wired]).
  split; [exact Hw |]. split; [discriminate |].
  destruct (play_start_then_active_end w [] [] Hw)
    as (w1 & w2 & H1 & H2 & Hs1 & Hs2 & _).
  exists w1, w2. rewrite Hs1, Hs2.
  repeat split; try assumption. discriminate.
Qed.

(** C4, amended.  From a world whose status is idle, [play_start] followed
    by [active_end] drives the status idle, playing, idle, and the update
    that returns to idle is a single written state in which title, artist,
    album, artwork and volume are all cleared. *)
Theorem idle_play_start_active_end w raw1 raw2 :
  wired w ->
  _state (self w) = IDLE ->
  exists w1 w2,
    mqtt_receive (ssnc (self w) PLAY_START) raw1 w = Ok w1
    /\ mqtt_receive (ssnc (self w1) ACTIVE_END) raw2 w1 = Ok w2
    /\ [_state (self w); _state (self w1); _state (self w2)]
       = [IDLE; PLAYING; IDLE]
    /\ _title (self w2) = None /\ _artist (self w2) = None
    /\ _album (self w2) = None /\ _media_image (self w2) = None
    /\ _volume_db (self w2) = None
    /\ written (hass w2) = self w2 :: written (hass w1).
Proof.
  intros Hw Hidle.
  destruct (play_start_then_active_end w raw1 raw2 Hw)
    as (w1 & w2 & H1 & H2 & Hs1 & Hs2 & Hrest).
  exists w1, w2. rewrite Hidle, Hs1, Hs2. auto.
Qed.

Lemma idle_play_start_active_end_witness :
  exists w1 w2,
    mqtt_receive (ssnc (self (boot "player" "shairport" "")) PLAY_START) []
      (boot "player" "shairport" "") = Ok w1
    /\ mqtt_receive (ssnc (self w1) ACTIVE_END) [] w1 = Ok w2
    /\ [_state (self (boot "player" "shairport" "")); _state (self w1);
        _state (self w2)] = [IDLE; PLAYING; IDLE]
    /\ _title (self w2) = None /\ _artist (self w2) = None
    /\ _album (self w2) = None /\ _media_image (self w2) = None
    /\ _volume_db (self w2) = None
    /\ written (hass w2) = self w2 :: written (hass w1).
Proof.
  apply (idle_play_start_active_end (boot "player" "shairport" "") [] []).
  - reflexivity.
  - reflexivity.
Defined.

(** C9.  The callbacks set the status whatever it was: [play_start] and
    [play_resume] make it playing, [play_end] and [play_flush] paused,
    [active_end] idle.  In particular an idle entity becomes paused on
    [play_end] or [play_flush], a step the specification's state machine
    does not list, and a playing entity stays playing on [play_start]. *)
Theorem status_set_unconditionally w raw :
  wired w ->
  (forall t, t = PLAY_START \/ t = PLAY_RESUME ->
     exists w', mqtt_receive (ssnc (self w) t) raw w = Ok w'
                /\ _state (self w') = PLAYING)
  /\ (forall t, t = PLAY_END \/ t = PLAY_FLUSH ->
        (exists w', mqtt_receive (ssnc (self w) t) raw w = Ok w'
                    /\ _state (self w') = PAUSED)
        /\ forall s', ~ spec_step IDLE t s')
  /\ (exists w', mqtt_receive (ssnc (self w) ACTIVE_END) raw w = Ok w'
                 /\ _state (self w') = IDLE).
Proof.
  intros Hw. split; [| split].
  - intros t [-> | ->]; fire.
  - intros t Ht. split.
    + destruct Ht as [-> | ->]; fire.
    + intros s' Hstep. destruct Ht as [-> | ->]; inversion Hstep.
  - fire.
Qed.

Lemma status_set_unconditionally_witness :
  _state (self (boot "player" "shairport" "")) = IDLE
  /\ exists w',
       mqtt_receive (ssnc (self (boot "player" "shairport" "")) PLAY_END) []
         (boot "player" "shairport" "") = Ok w'
       /\ _state (self w') = PAUSED.
Proof.
  split; [reflexivity |].
  apply (proj1 (proj2 (status_set_unconditionally
                         (boot "player" "shairport" "") [] (boot_wired _ _ _)))
           PLAY_END).
  now left.
Defined.

(** ** Command relay *)

(** The token of each command kind, as the specification lists them. *)
Definition spec_token (c : Service) : string :=
  match c with
  | media_play => "play"
  | media_pause => "pause"
  | media_stop => "stop"
  | media_next_track => "nextitem"
  | media_previous_track => "previtem"
  end.

(** The base topic kept by the entity is the configured one without its
    trailing slashes. *)
Lemma rstrip_no_trailing (c : ascii) (s : string) :
  rstrip c (s ++ String c "") = rstrip c s.
Proof.
  induction s as [|a s IH].
  - simpl. now rewrite Ascii.eqb_refl.
  - rewrite append_cons. simpl. now rewrite IH.
Qed.

(** C6.  A command publishes one message: its fixed token, on
    [<base>/ssnc/remote]; nothing else is published and the entity and the
    written states are untouched.  In particular the play command
    publishes [play]. *)
Theorem command_publishes_one_token w c :
  reachable w ->
  published (hass (service c w))
  = (_base_topic (self w) ++ "/ssnc/remote", spec_token c)
      :: published (hass w)
  /\ self (service c w) = self w
  /\ written (hass (service c w)) = written (hass w)
  /\ subscribed (hass (service c w)) = subscribed (hass w).
Proof.
  intros Hr. apply reachable_invariant in Hr. destruct Hr as [_ _ _ _ _ Hremote].
  destruct c; simpl; unfold _publish_cmd, async_publish; simpl;
    rewrite Hremote; auto.
Qed.

Lemma command_publishes_one_token_witness :
  published (hass (service media_play (boot "Kitchen" "home/airplay/" "")))
  = [("home/airplay/ssnc/remote", "play")].
Proof.
  apply (command_publishes_one_token (boot "Kitchen" "home/airplay/" "")
           media_play).
  now exists "Kitchen", "home/airplay/", "", [].
Defined.

(** ** Track metadata *)

(** The text attribute fed by a [core] topic. *)
Definition text_field (t : TopLevelTopic) (e : ShairportSyncMediaPlayer)
    : option Payload :=
  match t with
  | ARTIST => _artist e
  | ALBUM => _album e
  | TITLE => _title e
  | _ => None
  end.

Lemma receive_text t raw w :
  wired w ->
  t = ARTIST \/ t = ALBUM \/ t = TITLE ->
  mqtt_receive (core (self w) t) raw w =
  Ok (_meta_updater (TopLevelTopic_str t)
        {| topic := core (self w) t;
           payload := Text (string_of_list_byte raw) |} w).
Proof.
  intros Hw [-> | [-> | ->]]; now rewrite receive_core.
Qed.

(** C7.  A message on [core/artist], [core/album] or [core/title] stores
    its payload, as it is, in the corresponding attribute and leaves the
    two other text attributes, the artwork, the volume and the status as
    they were; after two such messages in a row the attribute holds the
    second payload. *)
Theorem metadata_last_write_wins w t raw1 raw2 :
  wired w ->
  t = ARTIST \/ t = ALBUM \/ t = TITLE ->
  exists w1 w2,
    mqtt_receive (core (self w) t) raw1 w = Ok w1
    /\ mqtt_receive (core (self w1) t) raw2 w1 = Ok w2
    /\ text_field t (self w1) = Some (Text (string_of_list_byte raw1))
    /\ text_field t (self w2) = Some (Text (string_of_list_byte raw2))
    /\ (forall t', t' <> t ->
          text_field t' (self w1) = text_field t' (self w)
          /\ text_field t' (self w2) = text_field t' (self w))
    /\ _media_image (self w2) = _media_image (self w)
    /\ _volume_db (self w2) = _volume_db (self w)
    /\ _state (self w2) = _state (self w)
    /\ _media_image (self w1) = _media_image (self w)
    /\ _volume_db (self w1) = _volume_db (self w)
    /\ _state (self w1) = _state (self w).
Proof.
  intros Hw Ht.
  set (m1 := {| topic := core (self w) t;
                payload := Text (string_of_list_byte raw1) |}).
  set (w1 := _meta_updater (TopLevelTopic_str t) m1 w).
  assert (Hw1 : wired w1)
    by (eapply wired_static; [apply _meta_updater_static | exact Hw]).
  exists w1. eexists.
  split; [now apply receive_text |].
  split; [now apply receive_text |].
  destruct Ht as [-> | [-> | ->]]; repeat split;
    try (destruct t'; try reflexivity; congruence).
Qed.

Lemma metadata_last_write_wins_witness :
  exists w1 w2,
    mqtt_receive (core (self (boot "player" "shairport" "")) TITLE)
      (list_byte_of_string "First") (boot "player" "shairport" "") = Ok w1
    /\ mqtt_receive (core (self w1) TITLE) (list_byte_of_string "Second") w1
       = Ok w2
    /\ _title (self w2) = Some (Text "Second")
    /\ _artist (self w2) = None /\ _album (self w2) = None.
Proof.
  destruct (metadata_last_write_wins (boot "player" "shairport" "") TITLE
              (list_byte_of_string "First") (list_byte_of_string "Second")
              (boot_wired _ _ _) (or_intror (or_intror eq_refl)))
    as (w1 & w2 & H1 & H2 & _ & Ht & Hother & _).
  exists w1, w2. repeat split; try assumption.
  - exact (proj2 (Hother ARTIST ltac:(discriminate))).
  - exact (proj2 (Hother ALBUM ltac:(discriminate))).
Defined.

(** ** Progress placeholders *)

(** C8.  A message on [core/position] or [core/duration] changes nothing,
    neither the entity nor the written states; and in every reachable
    world the attributes map holds the description and nothing else, so
    it has no position and no duration entry. *)
Theorem position_duration_discarded :
  (forall w raw,
     wired w ->
     mqtt_receive (core (self w) POSITION) raw w = Ok w
     /\ mqtt_receive (core (self w) DURATION) raw w = Ok w)
  /\ (forall w,
        reachable w ->
        extra_state_attributes (self w)
        = {[ "description" := AStr (_description (self w)) ]}
        /\ extra_state_attributes (self w) !! "position" = None
        /\ extra_state_attributes (self w) !! "duration" = None).
Proof.
  split.
  - intros w raw Hw. now rewrite !receive_core.
  - intros w Hr. apply reachable_invariant in Hr.
    destruct Hr as [_ _ Hd Hp _ _].
    unfold extra_state_attributes. rewrite Hd, Hp.
    split; [reflexivity |]. split; now apply lookup_singleton_ne.
Qed.

Lemma position_duration_discarded_witness :
  mqtt_receive (core (self (boot "player" "shairport" "AirPlay")) POSITION)
    (list_byte_of_string "12.5") (boot "player" "shairport" "AirPlay")
  = Ok (boot "player" "shairport" "AirPlay")
  /\ extra_state_attributes (self (boot "player" "shairport" "AirPlay"))
     = {[ "description" := AStr "AirPlay" ]}.
Proof.
  split.
  - exact (proj1 (proj1 position_duration_discarded
                    (boot "player" "shairport" "AirPlay")
                    (list_byte_of_string "12.5")
                    (boot_wired "player" "shairport" "AirPlay"))).
  - refine (proj1 (proj2 position_duration_discarded
                     (boot "player" "shairport" "AirPlay") _)).
    exists "player", "shairport", "AirPlay", []. reflexivity.
Defined.

(** ** Artwork *)

Lemma receive_cover raw w :
  wired w ->
  mqtt_receive (ssnc (self w) COVER) raw w =
  Ok (_cb_art {| topic := ssnc (self w) COVER; payload := Binary raw |} w).
Proof. intros Hw. now rewrite receive_ssnc. Qed.

(** The test suite of RFC 1321, appendix A.5, without the empty message:
    messages and their digests. *)
Definition rfc1321_suite : list (string * string) :=
  [ ("a", "0cc175b9c0f1b6a831c399e269772661");
    ("abc", "900150983cd24fb0d6963f7d28e17f72");
    ("message digest", "f96b697d7cb7938d525a2f31aaf161d0");
    ("abcdefghijklmnopqrstuvwxyz", "c3fcd3d76192e4007dfb496cca67e13b");
    ("ABCDEFGHIJKLMNOPQRSTUVWXYZabcdefghijklmnopqrstuvwxyz0123456789",
     "d174ab98d277d9f5a5611c2c9f419d9f");
    ("12345678901234567890123456789012345678901234567890123456789012345678901234567890",
     "57edf4a22be3c955ac49da2e2107b67a") ].

Lemma md5_rfc1321_suite :
  Forall
    (fun '(m, d) =>
       list_byte_of_string m <> []
       /\ MD5.hexdigest (list_byte_of_string m) = d)
    rfc1321_suite.
Proof.
  repeat constructor; try discriminate; vm_compute; reflexivity.
Qed.

Lemma md5_of_empty :
  MD5.hexdigest [] = "d41d8cd98f00b204e9800998ecf8427e".
Proof. vm_compute. reflexivity. Qed.

Lemma hex_length bs : String.length (MD5.hex bs) = (2 * length bs)%nat.
Proof.
  induction bs as [|b bs IH]; [reflexivity |].
  cbn [MD5.hex String.length length]. rewrite IH. lia.
Qed.

Lemma hexdigest_length blob : String.length (MD5.hexdigest blob) = 32%nat.
Proof.
  unfold MD5.hexdigest. rewrite hex_length. unfold MD5.digest.
  destruct (fold_left MD5.compress _ MD5.init) as [[[a b] c] d].
  reflexivity.
Qed.

(** C10.  The artwork hash is [None] when no artwork is stored and also
    when the last [cover] payload was the empty byte string; after a
    non-empty [cover] payload, and for every stored non-empty blob, it is
    the MD5 hex digest of the blob: thirty-two characters, and on the
    messages of the RFC 1321 test suite the digests the RFC lists. *)
Theorem artwork_hash w raw :
  wired w ->
  (_media_image (self w) = None -> media_image_hash (self w) = Ok None)
  /\ (exists w',
        mqtt_receive (ssnc (self w) COVER) [] w = Ok w'
        /\ _media_image (self w') = Some (Binary [])
        /\ media_image_hash (self w') = Ok None)
  /\ (raw <> [] ->
      exists w',
        mqtt_receive (ssnc (self w) COVER) raw w = Ok w'
        /\ _media_image (self w') = Some (Binary raw)
        /\ media_image_hash (self w') = Ok (Some (MD5.hexdigest raw)))
  /\ (forall e blob,
        _media_image e = Some (Binary blob) -> blob <> [] ->
        media_image_hash e = Ok (Some (MD5.hexdigest blob)))
  /\ (forall blob, String.length (MD5.hexdigest blob) = 32%nat)
  /\ Forall
       (fun '(m, d) =>
          forall e,
            _media_image e = Some (Binary (list_byte_of_string m)) ->
            media_image_hash e = Ok (Some d))
       rfc1321_suite.
Proof.
  intros Hw.
  assert (Hblob : forall e blob,
            _media_image e = Some (Binary blob) -> blob <> [] ->
            media_image_hash e = Ok (Some (MD5.hexdigest blob))).
  { intros e blob He Hne. unfold media_image_hash. rewrite He.
    destruct blob; [contradiction | reflexivity]. }
  split; [| split; [| split; [| split; [| split]]]].
  - intros Hnone. unfold media_image_hash. now rewrite Hnone.
  - eexists. split; [now apply receive_cover |]. split; reflexivity.
  - intros Hne. eexists. split; [now apply receive_cover |].
    split; [reflexivity |]. now apply Hblob.
  - exact Hblob.
  - apply hexdigest_length.
  - eapply Forall_impl; [apply md5_rfc1321_suite |].
    intros [m d] [Hne Hd] e He. rewrite <- Hd. now apply Hblob.
Qed.

Lemma artwork_hash_witness :
  exists w',
    mqtt_receive (ssnc (self (boot "player" "shairport" "")) COVER)
      (list_byte_of_string "abc") (boot "player" "shairport" "") = Ok w'
    /\ _media_image (self w') = Some (Binary (list_byte_of_string "abc"))
    /\ media_image_hash (self w')
       = Ok (Some "900150983cd24fb0d6963f7d28e17f72").
Proof.
  destruct (artwork_hash (boot "player" "shairport" "")
              (list_byte_of_string "abc") (boot_wired _ _ _))
    as (_ & _ & Hcover & _ & _ & Hsuite).
  destruct Hcover as (w' & Hrecv & Himg & _); [discriminate |].
  exists w'. split; [exact Hrecv |]. split; [exact Himg |].
  inversion Hsuite as [|? ? _ Hrest]; subst.
  inversion Hrest as [|? ? Habc _]; subst.
  exact (Habc (self w') Himg).
Defined.

(** * Further properties of the entity *)

(** ** Effects of one delivery *)

(** A callback that returns either changes nothing or ends with exactly
    one written state, the entity as it is after the callback; it never
    publishes. *)
Lemma call_effect cb msg w w' :
  call cb msg w = Ok w' ->
  published (hass w') = published (hass w)
  /\ (w' = w \/ written (hass w') = self w' :: written (hass w)).
Proof.
  destruct cb; simpl;
    try (intros [= <-]; split; [reflexivity | auto]).
  unfold _cb_vol. destruct (leading_db msg) as [db | []];
    intros [= <-]; split; auto.
Qed.

Lemma receive_cases t raw w :
  wired w ->
  mqtt_receive t raw w = Ok w
  \/ exists cb enc,
       In (cb, enc) (map snd suffixes)
       /\ mqtt_receive t raw w
          = call cb {| topic := t; payload := decode enc raw |} w.
Proof.
  intros Hw. rewrite (mqtt_receive_find _ _ _ Hw).
  destruct (find (on_topic t) (subscribed (hass w))) as [s|] eqn:E.
  - right. apply find_some in E as [Hin _].
    exists (sub_callback s), (sub_encoding s).
    split; [now apply (subscribed_routes w) | reflexivity].
  - now left.
Qed.

Lemma mqtt_receive_static t raw w w' :
  wired w -> mqtt_receive t raw w = Ok w' -> static w' = static w.
Proof.
  intros Hw. destruct (receive_cases t raw w Hw) as [-> | (cb & enc & _ & ->)].
  - now intros [= <-].
  - apply call_static.
Qed.

(** X1.  Whatever the base topic, the twelve keys of the topic map are
    pairwise distinct, so no entry of the dict literal overwrites another
    and every topic has one callback. *)
Theorem topic_map_keys_distinct e :
  length (topic_map e) = 12 /\ NoDup (map fst (topic_map e)).
Proof. split; [reflexivity | apply topic_map_NoDup]. Qed.

Lemma has_wildcard_app a b :
  has_wildcard (a ++ b) = has_wildcard a || has_wildcard b.
Proof.
  unfold has_wildcard. induction a as [|c a IH]; [reflexivity |].
  rewrite append_cons. cbn [list_ascii_of_string existsb].
  now rewrite IH, orb_assoc.
Qed.

Lemma suffixes_no_wildcard :
  forallb (fun item => negb (has_wildcard (fst item))) suffixes = true.
Proof. vm_compute. reflexivity. Qed.

(** X2.  When the base topic holds no MQTT wildcard ([+] or [#]), a
    message on a topic that is not a key of the topic map leaves the world
    as it is. *)
Theorem unknown_topic_ignored t raw w :
  wired w ->
  has_wildcard (_base_topic (self w)) = false ->
  ~ In t (map fst (topic_map (self w))) ->
  mqtt_receive t raw w = Ok w.
Proof.
  intros Hw Hplain Hnot. rewrite (mqtt_receive_find _ _ _ Hw).
  destruct (find (on_topic t) (subscribed (hass w))) as [s|] eqn:E;
    [| reflexivity].
  apply find_some in E as [Hin Ht]. exfalso. apply Hnot.
  rewrite (wired_filters w Hw) in Hin.
  apply in_map_iff in Hin as [item [<- Hin]].
  unfold on_topic, receives in Ht. rewrite filter_of_topic in Ht.
  assert (Hw0 : has_wildcard (_base_topic (self w) ++ fst item) = false).
  { rewrite has_wildcard_app, Hplain. cbn [orb].
    apply negb_true_iff.
    apply (proj1 (forallb_forall _ suffixes) suffixes_no_wildcard item Hin). }
  rewrite Hw0 in Ht. apply String.eqb_eq in Ht as <-.
  rewrite topic_map_suffixes, map_map.
  apply in_map_iff. exists item. split; [now destruct item | exact Hin].
Qed.

Lemma unknown_topic_ignored_witness :
  mqtt_receive "shairport/ssnc/seek" (list_byte_of_string "12")
    (boot "player" "shairport" "")
  = Ok (boot "player" "shairport" "").
Proof.
  apply (unknown_topic_ignored "shairport/ssnc/seek"
           (list_byte_of_string "12") (boot "player" "shairport" "")).
  - apply boot_wired.
  - reflexivity.
  - intros H. vm_compute in H. intuition discriminate.
Defined.

(** With a wildcard in the base topic the subscriptions are filters: under
    the base topic [home/+] a volume message for any one room is
    received. *)
Example wildcard_base_receives :
  exists w',
    mqtt_receive "home/kitchen/ssnc/volume" (list_byte_of_string "-10")
      (boot "player" "home/+" "") = Ok w'
    /\ _volume_db (self w') = Some (PFin (-10)).
Proof.
  rewrite mqtt_receive_find by apply boot_wired.
  replace (find (on_topic "home/kitchen/ssnc/volume")
             (subscribed (hass (boot "player" "home/+" ""))))
    with (Some {| sub_topic := "home/+/ssnc/volume";
                  sub_callback := cb_vol;
                  sub_encoding := utf8 |})
    by (vm_compute; reflexivity).
  cbn [sub_callback sub_encoding call]. unfold decode, utf8.
  unfold _cb_vol, leading_db. cbn [payload].
  rewrite string_of_list_byte_of_string.
  change (split "," "-10") with ["-10"]. cbn [getitem nth_error bind].
  replace (float "-10") with (Ok (PFin (-10))) by (vm_compute; reflexivity).
  eexists. split; reflexivity.
Qed.

(** X3.  A delivered message never publishes and never touches the
    configuration of the entity; it either leaves the world untouched or
    writes one state, and the state written is the entity as the message
    left it. *)
Theorem message_effect t raw w w' :
  wired w ->
  mqtt_receive t raw w = Ok w' ->
  published (hass w') = published (hass w)
  /\ static w' = static w
  /\ (w' = w \/ written (hass w') = self w' :: written (hass w)).
Proof.
  intros Hw H. split; [| split].
  - destruct (receive_cases t raw w Hw) as [E | (cb & enc & _ & E)];
      rewrite E in H.
    + now injection H as <-.
    + now apply call_effect in H.
  - now apply (mqtt_receive_static t raw).
  - destruct (receive_cases t raw w Hw) as [E | (cb & enc & _ & E)];
      rewrite E in H.
    + left. now injection H as <-.
    + now apply call_effect in H.
Qed.

Lemma message_effect_witness :
  exists w',
    mqtt_receive (ssnc (self (boot "player" "shairport" "")) PLAY_START) []
      (boot "player" "shairport" "") = Ok w'
    /\ published (hass w') = []
    /\ written (hass w') = [self w'].
Proof.
  set (w := boot "player" "shairport" "").
  assert (Hw : wired w) by apply boot_wired.
  assert (H : mqtt_receive (ssnc (self w) PLAY_START) [] w
              = Ok (_set_state PLAYING w)) by now rewrite receive_status.
  exists (_set_state PLAYING w). split; [exact H |].
  pose proof (message_effect _ _ _ _ Hw H) as (Hp & _ & _).
  split; [exact Hp | reflexivity].
Defined.

(** ** Properties kept along every run *)

(** A property that holds when the entity is added and that every event
    handled in an invariant world preserves holds in every reachable
    world. *)
Lemma run_preserves (P : World -> Prop) :
  (forall ev w w', invariant w -> P w -> handle ev w = Ok w' -> P w') ->
  forall evs w w', invariant w -> P w -> run evs w = Ok w' -> P w'.
Proof.
  intros Hstep evs. induction evs as [|ev evs IH]; intros w w' Hinv HP; simpl.
  - now intros [= <-].
  - destruct (handle_invariant ev w Hinv) as [w1 [E Hinv1]].
    rewrite E. simpl. apply IH; [exact Hinv1 |].
    now apply (Hstep ev w).
Qed.

Lemma service_effect c w :
  self (service c w) = self w /\ written (hass (service c w)) = written (hass w).
Proof. now destruct c. Qed.

Lemma volume_level_returns e : exists v, volume_level e = Ok v.
Proof.
  unfold volume_level. destruct (_volume_db e) as [[| s | q] |];
    eexists; reflexivity.
Qed.

(** X4.  Whatever the entity is called, whatever its base topic and
    whatever events follow its addition, inbound messages with arbitrary
    payloads and commands alike, no exception escapes a callback, and in
    the world reached neither the volume fraction nor the artwork hash
    raises. *)
Theorem no_exception_escapes n b d evs :
  exists w v h,
    run evs (boot n b d) = Ok w
    /\ volume_level (self w) = Ok v
    /\ media_image_hash (self w) = Ok h.
Proof.
  destruct (run_invariant evs _ (boot_invariant n b d)) as [w [Hrun Hinv]].
  destruct (volume_level_returns (self w)) as [v Hv].
  exists w, v. destruct Hinv as [_ _ _ _ Himg _].
  unfold media_image_hash.
  destruct (_media_image (self w)) as [[s | blob] |].
  - contradiction.
  - destruct blob; eexists; repeat split; eauto.
  - eexists; repeat split; eauto.
Qed.

(** The state last written to the host, if any. *)
Definition last_written (w : World) : option ShairportSyncMediaPlayer :=
  head (written (hass w)).

Lemma boot_written n b d : written (hass (boot n b d)) = [].
Proof. reflexivity. Qed.

(** X5.  The host never holds a stale state: in every world reached from
    the added entity, either nothing was written yet and the entity is
    still as it was added, or the state written last is the entity as it
    is now. *)
Theorem written_state_current n b d evs w :
  run evs (boot n b d) = Ok w ->
  match last_written w with
  | Some e => e = self w
  | None => self w = self (boot n b d)
  end.
Proof.
  generalize (eq_refl (self (boot n b d))).
  generalize (self (boot n b d)) at 1 3 as e0. intros e0 He0.
  apply (run_preserves
           (fun w => match last_written w with
                     | Some e => e = self w
                     | None => self w = e0
                     end)).
  - intros [t raw | c] w0 w' Hinv HP; cbn [handle].
    + destruct (receive_cases t raw w0 (inv_wired _ Hinv))
        as [-> | (cb & enc & _ & ->)].
      * now intros [= <-].
      * intros H. apply call_effect in H as (_ & [E | Hwr]);
          [now rewrite E |].
        unfold last_written. rewrite Hwr. reflexivity.
    + intros [= <-]. destruct (service_effect c w0) as [Hs Hwr].
      unfold last_written in *. rewrite Hs, Hwr. exact HP.
  - apply boot_invariant.
  - unfold last_written. rewrite boot_written. symmetry. exact He0.
Qed.

Lemma written_state_current_witness :
  match
    last_written
      (_set_state PAUSED (boot "player" "shairport" ""))
  with
  | Some e => e = self (_set_state PAUSED (boot "player" "shairport" ""))
  | None =>
      self (_set_state PAUSED (boot "player" "shairport" ""))
      = self (boot "player" "shairport" "")
  end.
Proof.
  apply (written_state_current "player" "shairport" ""
           [Inbound (ssnc (self (boot "player" "shairport" "")) PLAY_END) []]).
  cbn [run handle]. rewrite receive_status by apply boot_wired.
  reflexivity.
Defined.

(** The readings [_cb_vol] can store. *)
Definition stored_volume (v : option pyfloat) : Prop :=
  match v with
  | None | Some PNaN => True
  | Some (PInf _) => False
  | Some (PFin q) => (-30 <= q <= 0)%Q
  end.

Lemma clamp_stored db : stored_volume (Some (clamp db)).
Proof.
  destruct (is_nan db) eqn:E.
  - destruct db; try discriminate. exact I.
  - pose proof (clamp_between db E) as H.
    destruct (clamp db); try contradiction. exact H.
Qed.

Lemma call_volume cb msg w w' :
  call cb msg w = Ok w' ->
  stored_volume (_volume_db (self w)) ->
  stored_volume (_volume_db (self w')).
Proof.
  destruct cb; simpl; try (intros [= <-]; simpl; auto; fail).
  - intros [= <-]. unfold _meta_updater, setattr; simpl.
    repeat match goal with |- context [if ?c then _ else _] => destruct c end;
      auto.
  - unfold _cb_vol. destruct (leading_db msg) as [db | []];
      intros [= <-]; auto.
    intros _. apply clamp_stored.
Qed.

(** X6.  In every reachable world the stored decibel value is absent, NaN,
    or a finite value within [-30, 0]: it is never infinite and never a
    finite value outside the range. *)
Theorem stored_volume_reachable w :
  reachable w -> stored_volume (_volume_db (self w)).
Proof.
  intros (n & b & d & evs & Hrun). revert Hrun.
  apply (run_preserves (fun w => stored_volume (_volume_db (self w)))).
  - intros [t raw | c] w0 w' Hinv HP; cbn [handle].
    + destruct (receive_cases t raw w0 (inv_wired _ Hinv))
        as [-> | (cb & enc & _ & ->)].
      * now intros [= <-].
      * intros H. now apply (call_volume _ _ _ _ H).
    + intros [= <-]. now rewrite (proj1 (service_effect c w0)).
  - apply boot_invariant.
  - exact I.
Qed.

Lemma stored_volume_reachable_witness :
  exists w,
    run [Inbound (ssnc (self (boot "player" "shairport" "")) VOLUME)
           (list_byte_of_string "-144.0")]
      (boot "player" "shairport" "") = Ok w
    /\ _volume_db (self w) = Some (PFin (-30))
    /\ stored_volume (_volume_db (self w)).
Proof.
  set (w0 := boot "player" "shairport" "").
  set (w := async_write_ha_state
              (on_self (fun e => set_volume_db e (Some (PFin (-30)))) w0)).
  assert (Hrun : run [Inbound (ssnc (self w0) VOLUME)
                        (list_byte_of_string "-144.0")] w0 = Ok w).
  { cbn [run handle]. rewrite receive_volume by apply boot_wired.
    unfold _cb_vol, leading_db. cbn [payload].
    rewrite string_of_list_byte_of_string.
    change (split "," "-144.0") with ["-144.0"].
    cbn [getitem nth_error bind].
    replace (float "-144.0") with (Ok (PFin (-144)))
      by (vm_compute; reflexivity).
    reflexivity. }
  exists w. split; [exact Hrun |]. split; [reflexivity |].
  apply (stored_volume_reachable w).
  exists "player", "shairport", "", [Inbound (ssnc (self w0) VOLUME)
                                        (list_byte_of_string "-144.0")].
  exact Hrun.
Defined.

(** ** Subscribing and unsubscribing *)

Definition entity_subscriptions (e : ShairportSyncMediaPlayer)
    : list Subscription :=
  map subscription (topic_map e).

(** One turn of the loop of [_subscribe_topics]. *)
Definition subscribe_item (w : World)
    (item : string * (Callback * option string)) : World :=
  let s := subscription item in
  let w := async_subscribe s w in
  on_self (fun e => set_subscriptions e (_subscriptions e ++ [s])%list) w.

Lemma subscribe_items_add items w :
  subscribed (hass (fold_left subscribe_item items w))
  = (subscribed (hass w) ++ map subscription items)%list
  /\ _subscriptions (self (fold_left subscribe_item items w))
     = (_subscriptions (self w) ++ map subscription items)%list
  /\ _base_topic (self (fold_left subscribe_item items w))
     = _base_topic (self w)
  /\ written (hass (fold_left subscribe_item items w)) = written (hass w)
  /\ published (hass (fold_left subscribe_item items w))
     = published (hass w).
Proof.
  revert w. induction items as [|item items IH]; intros w; cbn [fold_left map].
  - rewrite !app_nil_r. repeat split.
  - destruct (IH (subscribe_item w item)) as (Hs & He & Hb & Hwr & Hp).
    rewrite Hs, He, Hb, Hwr, Hp. cbn. rewrite <- !app_assoc. repeat split.
Qed.

Lemma _subscribe_topics_adds w :
  subscribed (hass (_subscribe_topics w))
  = (subscribed (hass w) ++ entity_subscriptions (self w))%list
  /\ _subscriptions (self (_subscribe_topics w))
     = (_subscriptions (self w) ++ entity_subscriptions (self w))%list
  /\ _base_topic (self (_subscribe_topics w)) = _base_topic (self w)
  /\ written (hass (_subscribe_topics w)) = written (hass w)
  /\ published (hass (_subscribe_topics w)) = published (hass w).
Proof. apply (subscribe_items_add (topic_map (self w)) w). Qed.

Lemma unsub_all_effect l w :
  subscribed (hass (fold_left (fun w s => unsub s w) l w))
  = List.filter (fun s' => forallb (fun s => negb (bool_decide (s' = s))) l)
      (subscribed (hass w))
  /\ self (fold_left (fun w s => unsub s w) l w) = self w
  /\ written (hass (fold_left (fun w s => unsub s w) l w)) = written (hass w)
  /\ published (hass (fold_left (fun w s => unsub s w) l w))
     = published (hass w).
Proof.
  revert w. induction l as [|s l IH]; intros w; cbn [fold_left forallb].
  - repeat split. induction (subscribed (hass w)) as [|x xs IHx];
      [reflexivity |]. cbn. now rewrite <- IHx.
  - destruct (IH (unsub s w)) as (Hs & He & Hwr & Hp).
    rewrite Hs, He, Hwr, Hp. repeat split. cbn.
    induction (subscribed (hass w)) as [|x xs IHx]; [reflexivity |].
    cbn. destruct (bool_decide (x = s)); cbn; [exact IHx |].
    now rewrite IHx.
Qed.

Lemma filter_keep {A : Type} (f : A -> bool) (l : list A) :
  Forall (fun x => f x = true) l -> List.filter f l = l.
Proof.
  induction 1 as [|x l Hx _ IH]; cbn; [reflexivity |].
  now rewrite Hx, IH.
Qed.

Lemma filter_drop {A : Type} (f : A -> bool) (l : list A) :
  Forall (fun x => f x = false) l -> List.filter f l = [].
Proof.
  induction 1 as [|x l Hx _ IH]; cbn; [reflexivity |].
  now rewrite Hx.
Qed.

Lemma not_any_member (l : list Subscription) (x : Subscription) :
  forallb (fun s => negb (bool_decide (x = s))) l = true <-> ~ In x l.
Proof.
  induction l as [|s l IH]; cbn.
  - tauto.
  - rewrite andb_true_iff, IH, negb_true_iff, bool_decide_eq_false.
    split.
    + intros [Hne Hl] [E | Hin]; [now apply Hne | now apply Hl].
    + intros H. split; [intros E | intros Hin]; apply H; auto.
Qed.

(** X7.  Adding the entity and then removing it restores the host's
    subscriptions: when the entity holds no handle and none of the host's
    subscriptions is one of the entity's, [async_will_remove_from_hass]
    after [async_added_to_hass] leaves exactly the subscriptions that were
    there, and changes neither the written states, the published messages
    nor the attributes the callbacks use. *)
Theorem add_then_remove_restores w :
  _subscriptions (self w) = [] ->
  Forall (fun s => ~ In s (entity_subscriptions (self w)))
    (subscribed (hass w)) ->
  let w' := async_will_remove_from_hass (async_added_to_hass w) in
  subscribed (hass w') = subscribed (hass w)
  /\ written (hass w') = written (hass w)
  /\ published (hass w') = published (hass w)
  /\ _base_topic (self w') = _base_topic (self w).
Proof.
  intros Hnone Hforeign w'. subst w'.
  unfold async_will_remove_from_hass, async_added_to_hass.
  destruct (_subscribe_topics_adds w) as (Hs & He & Hb & Hwr & Hp).
  destruct (unsub_all_effect (_subscriptions (self (_subscribe_topics w)))
              (_subscribe_topics w)) as (Hs' & He' & Hwr' & Hp').
  rewrite Hs', He', Hwr', Hp', Hs, He, Hb, Hwr, Hp, Hnone.
  repeat split. cbn [app]. rewrite List.filter_app.
  rewrite (filter_keep _ (subscribed (hass w))).
  - rewrite filter_drop; [apply app_nil_r |].
    apply Forall_forall. intros x Hx.
    apply not_true_is_false. rewrite not_any_member.
    intros H. apply H. now apply list_elem_of_In.
  - eapply Forall_impl; [exact Hforeign |].
    intros x Hx. now apply not_any_member.
Qed.

Lemma add_then_remove_restores_witness :
  subscribed
    (hass (async_will_remove_from_hass
             (async_added_to_hass
                {| self := __init__ "player" "shairport" "";
                   hass := no_hass |})))
  = [].
Proof.
  apply (add_then_remove_restores
           {| self := __init__ "player" "shairport" ""; hass := no_hass |}).
  - reflexivity.
  - constructor.
Defined.

Lemma handles_are_subscriptions w :
  reachable w -> _subscriptions (self w) = subscribed (hass w).
Proof.
  intros (n & b & d & evs & Hrun). revert Hrun.
  apply (run_preserves
           (fun w => _subscriptions (self w) = subscribed (hass w))).
  - intros ev w0 w' Hinv HP H.
    assert (Hst : static w' = static w0).
    { destruct ev as [t raw | c]; cbn [handle] in H.
      - now apply (mqtt_receive_static t raw w0 w' (inv_wired _ Hinv)).
      - injection H as <-. apply service_static. }
    unfold static in Hst. injection Hst as _ _ _ _ _ _ _ Hh Hs.
    now rewrite Hh, Hs.
  - apply boot_invariant.
  - unfold boot, async_added_to_hass.
    destruct (_subscribe_topics_adds
                {| self := __init__ n b d; hass := no_hass |})
      as (Hs & He & _).
    now rewrite Hs, He.
Qed.

(** X8.  Removing a reachable entity cancels every subscription it holds:
    the host keeps none of them, the entity's attributes are untouched,
    and from then on a message on any topic, with any payload, changes
    nothing. *)
Theorem removed_entity_is_deaf w :
  reachable w ->
  let w' := async_will_remove_from_hass w in
  subscribed (hass w') = []
  /\ self w' = self w
  /\ written (hass w') = written (hass w)
  /\ forall t raw, mqtt_receive t raw w' = Ok w'.
Proof.
  intros Hr w'. subst w'. unfold async_will_remove_from_hass.
  destruct (unsub_all_effect (_subscriptions (self w)) w)
    as (Hs & He & Hwr & _).
  assert (Hnone : subscribed
                    (hass (fold_left (fun w s => unsub s w)
                             (_subscriptions (self w)) w)) = []).
  { rewrite Hs, (handles_are_subscriptions w Hr).
    apply filter_drop. apply Forall_forall. intros x Hx.
    apply not_true_is_false. rewrite not_any_member.
    intros H. apply H. now apply list_elem_of_In. }
  split; [exact Hnone |]. split; [exact He |]. split; [exact Hwr |].
  intros t raw. unfold mqtt_receive. now rewrite Hnone.
Qed.

Lemma removed_entity_is_deaf_witness :
  subscribed
    (hass (async_will_remove_from_hass (boot "player" "shairport" "")))
  = [].
Proof.
  apply (removed_entity_is_deaf (boot "player" "shairport" "")).
  now exists "player", "shairport", "", [].
Defined.

(** ** From the form to the entity *)

(** X9.  A submission that has the name key and the topic key goes all
    the way: the flow step creates an entry whose data is the submission,
    and both setup functions build from that data the same entity, idle,
    without metadata, artwork or volume, named as the entry is titled and
    listening under the submitted topic without its trailing slashes; its
    description is the submitted one, or empty when there is none. *)
Theorem accepted_submission_sets_up input title t :
  input !! CONF_NAME = Some title ->
  input !! Configuration_str TOPIC = Some t ->
  exists e,
    async_step_user (Some input) = Ok (create_entry title input)
    /\ async_setup_entry input = Ok e
    /\ async_setup_platform input = Ok e
    /\ _name e = title
    /\ _base_topic e = rstrip "/" t
    /\ _remote_topic e = rstrip "/" t ++ "/ssnc/remote"
    /\ _description e = default "" (input !! Configuration_str DESCRIPTION)
    /\ _state e = IDLE
    /\ (_title e, _artist e, _album e, _media_image e, _volume_db e)
       = (None, None, None, None, None).
Proof.
  intros Hn Ht. eexists.
  unfold async_step_user, async_setup_entry, async_setup_platform,
    dict_getitem.
  change (Configuration_str NAME) with CONF_NAME.
  rewrite Hn, Ht. cbn [bind]. repeat split.
Qed.

Lemma accepted_submission_sets_up_witness :
  exists e,
    async_step_user (Some {[ "name" := "Den"; "topic" := "home/den/" ]})
    = Ok (create_entry "Den" {[ "name" := "Den"; "topic" := "home/den/" ]})
    /\ async_setup_entry {[ "name" := "Den"; "topic" := "home/den/" ]} = Ok e
    /\ _base_topic e = "home/den"
    /\ _remote_topic e = "home/den/ssnc/remote".
Proof.
  destruct (accepted_submission_sets_up
              {[ "name" := "Den"; "topic" := "home/den/" ]} "Den" "home/den/")
    as (e & Hflow & Hentry & _ & _ & Hb & Hr & _).
  - reflexivity.
  - reflexivity.
  - exists e. repeat split; assumption.
Defined.

(** X10.  The flow step reads the name key only.  A submission without it
    raises [KeyError]; a submission with a name but no topic key still
    creates the entry, and setting that entry up then raises [KeyError],
    on either setup path. *)
Theorem missing_keys input :
  (input !! CONF_NAME = None ->
   async_step_user (Some input) = Raise KeyError
   /\ async_setup_entry input = Raise KeyError)
  /\ (forall title,
        input !! CONF_NAME = Some title ->
        input !! CONF_TOPIC = None ->
        async_step_user (Some input) = Ok (create_entry title input)
        /\ async_setup_entry input = Raise KeyError
        /\ async_setup_platform input = Raise KeyError).
Proof.
  unfold async_step_user, async_setup_entry, async_setup_platform,
    dict_getitem.
  change (Configuration_str NAME) with CONF_NAME.
  change (Configuration_str TOPIC) with CONF_TOPIC.
  split.
  - intros ->. split; reflexivity.
  - intros title -> ->. repeat split.
Qed.

Lemma missing_keys_witness :
  async_step_user (Some {[ "name" := "Den" ]})
  = Ok (create_entry "Den" {[ "name" := "Den" ]})
  /\ async_setup_entry {[ "name" := "Den" ]} = Raise KeyError
  /\ async_setup_platform {[ "name" := "Den" ]} = Raise KeyError.
Proof.
  apply (proj2 (missing_keys {[ "name" := "Den" ]}) "Den"); reflexivity.
Defined.

(** ** The base topic *)

(** [k] copies of the character [c]. *)
Fixpoint copies (c : ascii) (k : nat) : string :=
  match k with
  | O => EmptyString
  | S k' => String c (copies c k')
  end.

Lemma rstrip_copies c k : rstrip c (copies c k) = "".
Proof.
  induction k as [|k IH]; cbn [copies rstrip]; [reflexivity |].
  rewrite IH. now rewrite Ascii.eqb_refl.
Qed.

Lemma rstrip_decompose c s : exists k, s = rstrip c s ++ copies c k.
Proof.
  induction s as [|a s [k IH]]; cbn [rstrip].
  - now exists 0.
  - destruct (rstrip c s) as [|x r] eqn:E.
    + destruct (Ascii.eqb a c) eqn:Ea.
      * apply Ascii.eqb_eq in Ea as ->. exists (S k).
        change ("" ++ copies c (S k)) with (String c (copies c k)).
        now rewrite IH at 1.
      * exists k. rewrite append_cons. now rewrite IH at 1.
    + exists k. rewrite append_cons. now rewrite IH at 1.
Qed.

Lemma rstrip_not_trailing c s s' : rstrip c s <> s' ++ String c "".
Proof.
  revert s'. induction s as [|a s IH]; intros s'; cbn [rstrip].
  - destruct s'; discriminate.
  - destruct (rstrip c s) as [|x r] eqn:E.
    + destruct (Ascii.eqb a c) eqn:Ea.
      * destruct s'; discriminate.
      * destruct s' as [|y s'].
        -- intros [= ->]. now rewrite Ascii.eqb_refl in Ea.
        -- rewrite append_cons. intros [= _ H]. destruct s'; discriminate.
    + destruct s' as [|y s'].
      * intros H. inversion H.
      * rewrite append_cons. intros [= _ H]. now apply (IH s').
Qed.

(** X11.  The entity keeps the configured base topic up to its trailing
    slashes: what it stores is the configured topic with only slashes cut
    from its end, it never ends with a slash, and a configured topic with
    one more trailing slash builds the very same entity. *)
Theorem base_topic_normalised n b d :
  (exists k, b = _base_topic (__init__ n b d) ++ copies "/" k)
  /\ (forall s, _base_topic (__init__ n b d) <> s ++ "/")
  /\ __init__ n (b ++ "/") d = __init__ n b d
  /\ __init__ n (_base_topic (__init__ n b d)) d = __init__ n b d.
Proof.
  split; [apply rstrip_decompose |].
  split; [intros s; apply rstrip_not_trailing |].
  assert (Hidem : rstrip "/" (rstrip "/" b) = rstrip "/" b).
  { destruct (rstrip_decompose "/" (rstrip "/" b)) as [k Hk].
    destruct k as [|k].
    - change (copies "/" 0) with "" in Hk.
      assert (Hnil : forall s : string, s ++ "" = s).
      { induction s as [|a s IHs]; [reflexivity |].
        rewrite append_cons. now rewrite IHs. }
      rewrite Hnil in Hk. now symmetry.
    - exfalso.
      assert (Hend : forall j, exists s', copies "/" (S j) = s' ++ "/").
      { induction j as [|j [s' IHj]].
        - now exists "".
        - exists (String "/" s'). rewrite append_cons.
          now rewrite <- IHj. }
      destruct (Hend k) as [s' Hs']. rewrite Hs' in Hk.
      rewrite <- append_assoc in Hk.
      now apply (rstrip_not_trailing "/" b) in Hk. }
  split.
  - unfold __init__. now rewrite (rstrip_no_trailing "/" b).
  - unfold __init__. cbn [_base_topic]. now rewrite Hidem.
Qed.

(** ** The volume callback *)

Definition no_comma (s : string) : Prop :=
  Forall (fun c => c <> ","%char) (list_ascii_of_string s).

Lemma split_leading s rest :
  no_comma s ->
  split "," (s ++ String "," rest) = s :: split "," rest.
Proof.
  unfold no_comma. induction s as [|a s IH]; intros H.
  - reflexivity.
  - cbn [list_ascii_of_string] in H. inversion H as [|? ? Ha Hs]; subst.
    rewrite append_cons. cbn [split].
    apply Ascii.eqb_neq in Ha. rewrite Ha. now rewrite IH.
Qed.

Lemma split_single s : no_comma s -> split "," s = [s].
Proof.
  unfold no_comma. induction s as [|a s IH]; intros H.
  - reflexivity.
  - cbn [list_ascii_of_string] in H. inversion H as [|? ? Ha Hs]; subst.
    cbn [split]. apply Ascii.eqb_neq in Ha. rewrite Ha. now rewrite IH.
Qed.

(** X12.  Only the text before the first comma of a volume payload
    counts: a payload and its leading token alone have the same effect,
    whatever follows the comma. *)
Theorem volume_reads_leading_token w s rest :
  wired w ->
  no_comma s ->
  mqtt_receive (ssnc (self w) VOLUME)
    (list_byte_of_string (s ++ String "," rest)) w
  = mqtt_receive (ssnc (self w) VOLUME) (list_byte_of_string s) w.
Proof.
  intros Hw Hs. rewrite !receive_volume by assumption.
  rewrite !string_of_list_byte_of_string.
  unfold _cb_vol, leading_db. cbn [payload].
  now rewrite (split_leading s rest Hs), (split_single s Hs).
Qed.

Lemma volume_reads_leading_token_witness :
  mqtt_receive (ssnc (self (boot "player" "shairport" "")) VOLUME)
    (list_byte_of_string "-20.5,-18,-96.3,0") (boot "player" "shairport" "")
  = mqtt_receive (ssnc (self (boot "player" "shairport" "")) VOLUME)
      (list_byte_of_string "-20.5") (boot "player" "shairport" "").
Proof.
  apply (volume_reads_leading_token (boot "player" "shairport" "")
           "-20.5" "-18,-96.3,0").
  - apply boot_wired.
  - unfold no_comma. cbn. repeat constructor; discriminate.
Defined.

Lemma receive_volume_reading w raw tok db :
  wired w ->
  getitem (split "," (string_of_list_byte raw)) 0 = Ok tok ->
  float tok = Ok db ->
  exists w',
    mqtt_receive (ssnc (self w) VOLUME) raw w = Ok w'
    /\ _volume_db (self w') = Some (clamp db)
    /\ written (hass w') = self w' :: written (hass w).
Proof.
  intros Hw Htok Hdb. rewrite receive_volume by assumption.
  unfold _cb_vol, leading_db. cbn [payload]. rewrite Htok.
  cbn [bind]. rewrite Hdb. eexists. split; [reflexivity |].
  split; reflexivity.
Qed.

(** X13.  A reading saturates at the ends of the range and is otherwise
    stored as read: a finite reading above 0 is stored as 0, one below -30
    as -30, one within the range as itself; plus infinity is stored as 0
    and minus infinity as -30. *)
Theorem volume_saturates w raw tok db :
  wired w ->
  getitem (split "," (string_of_list_byte raw)) 0 = Ok tok ->
  float tok = Ok db ->
  exists w',
    mqtt_receive (ssnc (self w) VOLUME) raw w = Ok w'
    /\ _volume_db (self w')
       = Some match db with
              | PNaN => PNaN
              | PInf false => PFin 0
              | PInf true => PFin (-30)
              | PFin q =>
                  if Qlt_le_dec 0 q then PFin 0
                  else if Qlt_le_dec q (-30) then PFin (-30)
                  else PFin q
              end.
Proof.
  intros Hw Htok Hdb.
  destruct (receive_volume_reading w raw tok db Hw Htok Hdb)
    as (w' & H & Hv & _).
  exists w'. split; [exact H |]. rewrite Hv. f_equal.
  destruct db as [| [|] | q]; try reflexivity.
  unfold clamp, py_min, py_max, gt, _MAX_DB, _MIN_DB. cbn [lt].
  destruct (Qlt_le_dec 0 q) as [H0 | H0].
  - cbn [lt]. destruct (Qlt_le_dec 0 (-30)) as [Habs | _]; [| reflexivity].
    exfalso. revert Habs. apply Qle_not_lt. discriminate.
  - cbn [lt]. destruct (Qlt_le_dec q (-30)); reflexivity.
Qed.

Lemma volume_saturates_witness :
  exists w',
    mqtt_receive (ssnc (self (boot "player" "shairport" "")) VOLUME)
      (list_byte_of_string "-144.0") (boot "player" "shairport" "") = Ok w'
    /\ _volume_db (self w') = Some (PFin (-30)).
Proof.
  destruct (volume_saturates (boot "player" "shairport" "")
              (list_byte_of_string "-144.0") "-144.0" (PFin (-144))
              (boot_wired _ _ _) eq_refl eq_refl) as (w' & H & Hv).
  exists w'. split; [exact H |]. exact Hv.
Defined.

(** ** What a message leaves alone *)

(** The track as the host shows it: title, artist, album, artwork and
    stored volume. *)
Definition track (e : ShairportSyncMediaPlayer) :=
  (_title e, _artist e, _album e, _media_image e, _volume_db e).

(** X15.  Only [active_end] clears the track: a [play_start],
    [play_resume], [play_end] or [play_flush] message changes the status
    and keeps title, artist, album, artwork and volume as they were. *)
Theorem play_and_pause_keep_track w t raw :
  wired w ->
  t = PLAY_START \/ t = PLAY_RESUME \/ t = PLAY_END \/ t = PLAY_FLUSH ->
  exists w',
    mqtt_receive (ssnc (self w) t) raw w = Ok w'
    /\ track (self w') = track (self w)
    /\ _state (self w') <> IDLE
    /\ written (hass w') = self w' :: written (hass w).
Proof.
  intros Hw Ht. rewrite receive_status by assumption.
  destruct Ht as [-> | [-> | [-> | ->]]]; eexists;
    (split; [reflexivity |]); repeat split; discriminate.
Qed.

Lemma play_and_pause_keep_track_witness :
  exists w1 w2,
    mqtt_receive (core (self (boot "player" "shairport" "")) TITLE)
      (list_byte_of_string "Blue in Green") (boot "player" "shairport" "")
    = Ok w1
    /\ mqtt_receive (ssnc (self w1) PLAY_END) [] w1 = Ok w2
    /\ _title (self w2) = Some (Text "Blue in Green")
    /\ _state (self w2) = PAUSED.
Proof.
  set (w0 := boot "player" "shairport" "").
  set (w1 := _meta_updater "title"
               {| topic := core (self w0) TITLE;
                  payload := Text "Blue in Green" |} w0).
  assert (Hw0 : wired w0) by apply boot_wired.
  assert (Hw1 : wired w1)
    by (eapply wired_static; [apply _meta_updater_static | exact Hw0]).
  destruct (play_and_pause_keep_track w1 PLAY_END [] Hw1
              (or_intror (or_intror (or_introl eq_refl))))
    as (w2 & H2 & Htr & _ & _).
  exists w1, w2.
  split; [now rewrite receive_core |]. split; [exact H2 |].
  split.
  - unfold track in Htr. now injection Htr as -> _ _ _ _.
  - rewrite receive_status in H2 by assumption. now injection H2 as <-.
Defined.

(** X16.  A [cover] message replaces the artwork with its payload, bytes
    as they came, and touches nothing else: status, title, artist, album
    and volume stay, and one state is written. *)
Theorem cover_replaces_artwork_only w raw :
  wired w ->
  exists w',
    mqtt_receive (ssnc (self w) COVER) raw w = Ok w'
    /\ _media_image (self w') = Some (Binary raw)
    /\ (_state (self w'), _title (self w'), _artist (self w'),
        _album (self w'), _volume_db (self w'))
       = (_state (self w), _title (self w), _artist (self w),
          _album (self w), _volume_db (self w))
    /\ written (hass w') = self w' :: written (hass w).
Proof.
  intros Hw. rewrite receive_cover by assumption.
  eexists. split; [reflexivity |]. repeat split.
Qed.

Lemma cover_replaces_artwork_only_witness :
  exists w',
    mqtt_receive (ssnc (self (boot "player" "shairport" "")) COVER)
      (list_byte_of_string "JFIF") (boot "player" "shairport" "") = Ok w'
    /\ _media_image (self w') = Some (Binary (list_byte_of_string "JFIF")).
Proof.
  destruct (cover_replaces_artwork_only (boot "player" "shairport" "")
              (list_byte_of_string "JFIF") (boot_wired _ _ _))
    as (w' & H & Hi & _).
  exists w'. split; [exact H | exact Hi].
Defined.

(** ** Commands and messages do not interfere *)

Definition then_publish (t msg : string) (r : result World) : result World :=
  let! w := r in Ok (async_publish t msg w).

Lemma call_publish cb m t msg w :
  call cb m (async_publish t msg w) = then_publish t msg (call cb m w).
Proof.
  destruct cb; try reflexivity.
  cbn [call]. unfold _cb_vol.
  destruct (leading_db m) as [db | []]; reflexivity.
Qed.

Lemma deliver_publish tp raw t msg r s :
  deliver tp raw (then_publish t msg r) s
  = then_publish t msg (deliver tp raw r s).
Proof.
  destruct r as [w | e]; [| reflexivity].
  cbn [then_publish bind deliver]. destruct (on_topic tp s).
  - apply call_publish.
  - reflexivity.
Qed.

Lemma deliver_all_publish tp raw t msg subs r :
  fold_left (deliver tp raw) subs (then_publish t msg r)
  = then_publish t msg (fold_left (deliver tp raw) subs r).
Proof.
  revert r. induction subs as [|s subs IH]; intros r; cbn [fold_left].
  - reflexivity.
  - now rewrite deliver_publish, IH.
Qed.

Lemma deliver_remote_topic tp raw subs w w' :
  fold_left (deliver tp raw) subs (Ok w) = Ok w' ->
  _remote_topic (self w') = _remote_topic (self w).
Proof.
  revert w. induction subs as [|s subs IH]; intros w; cbn [fold_left].
  - now intros [= <-].
  - cbn [deliver bind]. destruct (on_topic tp s).
    + destruct (call (sub_callback s)
                  {| topic := tp; payload := decode (sub_encoding s) raw |} w)
        as [w1 | e] eqn:E.
      * intros H. apply IH in H. apply call_static in E.
        unfold static in E. injection E as _ _ _ Hr _ _ _ _ _.
        now rewrite H.
      * intros H. exfalso. clear -H.
        induction subs as [|s' subs IH']; cbn [fold_left] in H;
          [discriminate | now apply IH'].
    + apply IH.
Qed.

(** X17.  Commands and inbound messages commute: publishing a command and
    then receiving a message gives the world that receiving the message
    and then publishing the command gives, exceptions included; no
    callback reads what was published and no message moves the
    remote-command topic. *)
Theorem publish_commutes_with_receive cmd tp raw w :
  mqtt_receive tp raw (_publish_cmd cmd w)
  = (let! w' := mqtt_receive tp raw w in Ok (_publish_cmd cmd w')).
Proof.
  unfold mqtt_receive, _publish_cmd.
  change (subscribed (hass (async_publish (_remote_topic (self w))
                              (Command_str cmd) w)))
    with (subscribed (hass w)).
  change (Ok (async_publish (_remote_topic (self w)) (Command_str cmd) w))
    with (then_publish (_remote_topic (self w)) (Command_str cmd) (Ok w)).
  rewrite deliver_all_publish.
  destruct (fold_left (deliver tp raw) (subscribed (hass w)) (Ok w))
    as [w' | e] eqn:E; [| reflexivity].
  cbn [then_publish bind].
  now rewrite (deliver_remote_topic _ _ _ _ _ E).
Qed.

(** X18.  Commands go out in the order they are issued: after a series of
    commands the published messages are, latest first, the tokens of the
    series, each on the remote-command topic, on top of what was published
    before; none is dropped, repeated or sent elsewhere, and the entity
    and the written states are as before. *)
Theorem commands_published_in_order cmds w :
  let w' := fold_left (fun w c => _publish_cmd c w) cmds w in
  published (hass w')
  = (rev (map (fun c => (_remote_topic (self w), Command_str c)) cmds)
     ++ published (hass w))%list
  /\ self w' = self w
  /\ written (hass w') = written (hass w)
  /\ subscribed (hass w') = subscribed (hass w).
Proof.
  cbn zeta. revert w. induction cmds as [|c cmds IH]; intros w.
  - repeat split.
  - cbn [fold_left map rev]. destruct (IH (_publish_cmd c w))
      as (Hp & Hs & Hwr & Hsub).
    rewrite Hp, Hs, Hwr, Hsub. cbn. rewrite <- app_assoc. repeat split.
Qed.

(** X19.  Messages on two different text topics commute on the entity:
    artist then title, say, leaves the attributes that title then artist
    leaves. *)
Theorem text_messages_commute w t1 t2 raw1 raw2 :
  wired w ->
  t1 = ARTIST \/ t1 = ALBUM \/ t1 = TITLE ->
  t2 = ARTIST \/ t2 = ALBUM \/ t2 = TITLE ->
  t1 <> t2 ->
  exists w12 w21,
    (let! w1 := mqtt_receive (core (self w) t1) raw1 w in
     mqtt_receive (core (self w1) t2) raw2 w1) = Ok w12
    /\ (let! w2 := mqtt_receive (core (self w) t2) raw2 w in
        mqtt_receive (core (self w2) t1) raw1 w2) = Ok w21
    /\ self w12 = self w21
    /\ text_field t1 (self w12) = Some (Text (string_of_list_byte raw1))
    /\ text_field t2 (self w12) = Some (Text (string_of_list_byte raw2)).
Proof.
  intros Hw H1 H2 Hne.
  assert (Hstep : forall t raw w0, wired w0 ->
            t = ARTIST \/ t = ALBUM \/ t = TITLE ->
            wired (_meta_updater (TopLevelTopic_str t)
                     {| topic := core (self w0) t;
                        payload := Text (string_of_list_byte raw) |} w0)).
  { intros t raw w0 Hw0 _.
    eapply wired_static; [apply _meta_updater_static | exact Hw0]. }
  rewrite (receive_text t1 raw1 w Hw H1), (receive_text t2 raw2 w Hw H2).
  cbn [bind].
  rewrite (receive_text t2 raw2 _ (Hstep t1 raw1 w Hw H1) H2).
  rewrite (receive_text t1 raw1 _ (Hstep t2 raw2 w Hw H2) H1).
  eexists. eexists. split; [reflexivity |]. split; [reflexivity |].
  destruct H1 as [-> | [-> | ->]], H2 as [-> | [-> | ->]];
    try congruence; repeat split.
Qed.

Lemma text_messages_commute_witness :
  exists w12 w21,
    (let! w1 := mqtt_receive (core (self (boot "p" "shairport" "")) ARTIST)
                  (list_byte_of_string "Miles Davis")
                  (boot "p" "shairport" "") in
     mqtt_receive (core (self w1) TITLE) (list_byte_of_string "So What") w1)
    = Ok w12
    /\ (let! w2 := mqtt_receive (core (self (boot "p" "shairport" "")) TITLE)
                     (list_byte_of_string "So What")
                     (boot "p" "shairport" "") in
        mqtt_receive (core (self w2) ARTIST)
          (list_byte_of_string "Miles Davis") w2)
       = Ok w21
    /\ self w12 = self w21.
Proof.
  destruct (text_messages_commute (boot "p" "shairport" "") ARTIST TITLE
              (list_byte_of_string "Miles Davis")
              (list_byte_of_string "So What")
              (boot_wired _ _ _)
              (or_introl eq_refl) (or_intror (or_intror eq_refl))
              ltac:(discriminate))
    as (w12 & w21 & H12 & H21 & Hs & _).
  exists w12, w21. split; [exact H12 |]. split; [exact H21 | exact Hs].
Defined.
